(** * Incremental snapshot synchronisation of popular-movies-historic

    A shallow embedding of [src/lib/movies/api.ts] (the R2-backed
    [syncMovies] / [getMovies] revision) together with the Zod schema
    [Movie] of [lib/movies/types], and the properties of the
    synchronisation engine stated over it.

    Conventions of the embedding.
    - A JavaScript [Date] is its time value: a number of milliseconds since
      the Unix epoch, an integer of [Z].  The Workers runtime keeps local
      time equal to UTC, so [d.setDate(d.getDate() + k)] adds
      [k * 86 400 000] ms and [new Date(y, m, d)] is midnight UTC.
    - An [async] function is a computation over the bucket which either
      returns a value or rejects, and which emits the I/O it performs
      (bucket reads and writes, HTTP requests) as a trace.
    - The text held by a bucket object is kept in parsed form, see [blob]. *)

From stdpp Require Import gmap strings list fin_maps pretty sorting.

Open Scope Z_scope.

(** ** JSON values and the Zod schema *)

(** What [JSON.parse] / [Response.json()] produce.  The program never
    inspects a number, so their fractional part is not kept. *)
Local Unset Elimination Schemes.
Inductive json :=
| JNull
| JBool (b : bool)
| JNum (n : Z)
| JStr (s : string)
| JArr (items : list json)
| JObj (fields : list (string * json)).
Local Set Elimination Schemes.

(** [export const Movie = z.object({ title, imdb_id, poster_url })] *)
Record Movie := mkMovie {
  title : string;
  imdb_id : string;
  poster_url : string;
}.

(** Property read [o[k]] on a parsed object whose members are listed in
    source order: with a repeated key [JSON.parse] keeps the last member. *)
Fixpoint prop (k : string) (fields : list (string * json)) : option json :=
  match fields with
  | [] => None
  | (k', v) :: rest =>
      match prop k rest with
      | Some v' => Some v'
      | None => if String.eqb k' k then Some v else None
      end
  end.

(** [z.string()] *)
Definition z_string (j : option json) : option string :=
  match j with
  | Some (JStr s) => Some s
  | _ => None
  end.

(** [Movie.parse(j)]: an object whose three fields are strings; keys the
    schema does not list are stripped.  [None] stands for a [ZodError]. *)
Definition Movie_parse (j : json) : option Movie :=
  match j with
  | JObj fields =>
      t ← z_string (prop "title" fields);
      i ← z_string (prop "imdb_id" fields);
      p ← z_string (prop "poster_url" fields);
      Some (mkMovie t i p)
  | _ => None
  end.

(** [z.array(Movie).parse(data)] *)
Definition z_array_Movie_parse (data : json) : option (list Movie) :=
  match data with
  | JArr items => mapM Movie_parse items
  | _ => None
  end.

(** The value [JSON.stringify] writes for a [Movie], read back. *)
Definition Movie_json (m : Movie) : json :=
  JObj [("title", JStr (title m)); ("imdb_id", JStr (imdb_id m));
        ("poster_url", JStr (poster_url m))]%string.

Definition JSON_stringify (movies : list Movie) : json :=
  JArr (Movie_json <$> movies).

(** ** The merge step *)

(** [movies.find((movie) => movie.imdb_id === newMovie.imdb_id)] *)
Definition find_imdb (movies : list Movie) (newMovie : Movie) : option Movie :=
  List.find (fun movie => String.eqb (imdb_id movie) (imdb_id newMovie)) movies.

(** [appendUnique]: both branches build a new array with a spread. *)
Definition appendUnique (movies : list Movie) (newMovie : Movie) : list Movie :=
  match find_imdb movies newMovie with
  | Some _ => movies
  | None => movies ++ [newMovie]
  end.

(** [for (const newMovie of newMovies) movies = appendUnique(movies, newMovie)] *)
Definition appendAll (movies newMovies : list Movie) : list Movie :=
  fold_left appendUnique newMovies movies.

(** Arrays as JavaScript has them: objects reached through a reference.
    [appendUnique] reads the array behind [movies] and allocates its result. *)
Module Arrays.

Definition ref := positive.

Definition alloc (h : gmap ref (list Movie)) (a : list Movie)
  : gmap ref (list Movie) * ref :=
  let r := fresh (dom h) in (<[r := a]> h, r).

Definition appendUnique (h : gmap ref (list Movie)) (movies : ref)
    (newMovie : Movie) : option (gmap ref (list Movie) * ref) :=
  a ← h !! movies;
  match find_imdb a newMovie with
  | Some _ => Some (alloc h a)                  (* [...movies] *)
  | None => Some (alloc h (a ++ [newMovie]))    (* [...movies, newMovie] *)
  end.

End Arrays.

(** ** Dates *)

Definition msPerDay : Z := 86400000.

(** Day number (days since 1970-01-01) of the calendar day a time value
    falls in; what [toISOString().split("T")[0]] keeps of a date. *)
Definition dayOf (t : Z) : Z := t / msPerDay.

(** [d.setDate(d.getDate() + k)] *)
Definition addDays (t k : Z) : Z := t + k * msPerDay.

(** Year, month (1..12) and day of month of a day number in the proleptic
    Gregorian calendar. *)
Definition civil (day : Z) : Z * Z * Z :=
  let z := day + 719468 in
  let era := z / 146097 in
  let doe := z - era * 146097 in
  let yoe := (doe - doe / 1460 + doe / 36524 - doe / 146096) / 365 in
  let doy := doe - (365 * yoe + yoe / 4 - yoe / 100) in
  let mp := (5 * doy + 2) / 153 in
  let d := doy - (153 * mp + 2) / 5 + 1 in
  let m := if mp <? 10 then mp + 3 else mp - 9 in
  (yoe + era * 400 + (if m <=? 2 then 1 else 0), m, d).

Definition getFullYear (t : Z) : Z := (civil (dayOf t)).1.1.
Definition getMonth (t : Z) : Z := (civil (dayOf t)).1.2 - 1.
Definition getDate (t : Z) : Z := (civil (dayOf t)).2.

(** [String(n).padStart(2, "0")] *)
Definition padStart2 (n : Z) : string :=
  let s := pretty n in
  if (String.length s <? 2)%nat then ("0" +:+ s)%string else s.

Definition getUrl (date : Z) : string :=
  let baseUrl := "https://popular-movies-data.stevenlu.com"%string in
  let year := getFullYear date in
  let month := padStart2 (getMonth date + 1) in
  let day := padStart2 (getDate date) in
  (baseUrl +:+ "/movies-" +:+ pretty year +:+ month +:+ day +:+ ".json")%string.

(** [new Date(2019, 11, 2)], 2 Dec 2019 *)
Definition getEarliestSync : Z := 18232 * msPerDay.

(** [getLatestSync]: the clock reading [now] moved back one day; it keeps
    the time of day. *)
Definition getLatestSync (now : Z) : Z := addDays now (-1).

(** ** Bucket, network and the [async] monad *)

(** The text of a bucket object, by what the readers of this program make
    of it: [IsoDate n] is the text [YYYY-MM-DD] of day number [n] (accepted
    by [z.iso.date()], rejected by [JSON.parse]); [JsonText j] is a text
    that [JSON.parse] reads as [j] (no such text is an ISO date);
    [PlainText] is any other text. *)
Inductive blob :=
| IsoDate (day : Z)
| JsonText (j : json)
| PlainText (s : string).

Record Response := mkResponse {
  status : Z;
  body : option json;   (* [None]: [response.json()] rejects *)
}.

(** [response.ok] *)
Definition ok (r : Response) : bool := (200 <=? status r) && (status r <=? 299).

Inductive event :=
| EGet (key : string)
| EPut (key : string) (value : blob)
| EFetch (date : Z) (url : string).

Inductive error :=
| ZodError              (* schema validation failed *)
| SyntaxError           (* [object.json()] on a text that is not JSON *)
| FetchError            (* [fetch] rejected: transport failure or timeout *)
| InvalidLastSyncDate.  (* [Error("Invalid last sync date")] *)

Inductive result (A : Type) :=
| Ok (a : A)
| Err (e : error).
Arguments Ok {A} a.
Arguments Err {A} e.

Definition Async (A : Type) : Type :=
  gmap string blob → result A * gmap string blob * list event.

Global Instance Async_ret : MRet Async := λ A a b, (Ok a, b, []).

Global Instance Async_bind : MBind Async := λ A B f m b,
  match m b with
  | (Ok a, b1, t1) => let '(r, b2, t2) := f a b1 in (r, b2, t1 ++ t2)
  | (Err e, b1, t1) => (Err e, b1, t1)
  end.

Definition throw {A} (e : error) : Async A := λ b, (Err e, b, []).

Definition lift {A} (r : result A) : Async A := λ b, (r, b, []).

(** [bucket.get(key)] and [bucket.put(key, value)] of a bucket that is up *)
Definition bucket_get (key : string) : Async (option blob) :=
  λ b, (Ok (b !! key), b, [EGet key]).

Definition bucket_put (key : string) (value : blob) : Async unit :=
  λ b, (Ok tt, <[key := value]> b, [EPut key value]).

(** [fetch(url, { signal: AbortSignal.timeout(1000) })] issued for [date] *)
Definition http_fetch (fetch : string → option Response) (date : Z) (url : string)
  : Async Response :=
  λ b, match fetch url with
       | Some r => (Ok r, b, [EFetch date url])
       | None => (Err FetchError, b, [EFetch date url])
       end.

(** [object.json()] *)
Definition object_json (o : blob) : option json :=
  match o with JsonText j => Some j | _ => None end.

(** [z.iso.date().parse(await object.text())] *)
Definition z_iso_date_parse (o : blob) : option Z :=
  match o with IsoDate n => Some n | _ => None end.

(** ** The stores *)

Definition moviesBucketKey : string := "movies.json".
Definition lastSyncedBucketKey : string := "last_synced.txt".

Definition setMovies (movies : list Movie) : Async unit :=
  bucket_put moviesBucketKey (JsonText (JSON_stringify movies)).

Definition getMovies : Async (list Movie) :=
  object ← bucket_get moviesBucketKey;
  match object with
  | None =>
      let movies := [] in
      setMovies movies;;
      mret movies
  | Some o =>
      match object_json o with
      | None => throw SyntaxError
      | Some data =>
          match z_array_Movie_parse data with
          | Some movies => mret movies
          | None => throw ZodError
          end
      end
  end.

(** [date.toISOString().split("T")[0]] is the UTC day of [date] and is never
    empty, so the [throw new Error("Invalid date string")] is not reached. *)
Definition setLastSynced (date : Z) : Async unit :=
  let dateString := IsoDate (dayOf date) in
  bucket_put lastSyncedBucketKey dateString.

Definition getLastSynced : Async Z :=
  object ← bucket_get lastSyncedBucketKey;
  match object with
  | None =>
      let date := addDays getEarliestSync (-1) in
      setLastSynced date;;
      mret date
  | Some o =>
      match z_iso_date_parse o with
      | Some parsed => mret (parsed * msPerDay)   (* [new Date(parsed)] *)
      | None => throw ZodError
      end
  end.

(** ** The snapshot fetcher *)

Definition fetchMovies (fetch : string → option Response) (date : Z)
  : Async (option (list Movie)) :=
  let url := getUrl date in
  response ← http_fetch fetch date url;
  if negb (ok response) then
    if status response =? 404 then mret (Some [])
    else mret None
  else
    match body response with
    | None => mret (Some [])
    | Some data =>
        match z_array_Movie_parse data with
        | Some movies => mret (Some movies)
        | None => throw ZodError
        end
    end.

(** ** The pending window *)

Definition getSyncUntil (now lastSynced : Z) : result Z :=
  let latestSync := getLatestSync now in
  if lastSynced >? latestSync then Err InvalidLastSyncDate
  else
    let syncUntil := addDays lastSynced 7 in
    if syncUntil >? latestSync then Ok latestSync else Ok syncUntil.

(** The [while (date <= until)] loop; [fuel] bounds the iterations. *)
Fixpoint getDateRange_loop (fuel : nat) (date until : Z) : list Z :=
  match fuel with
  | O => []
  | S fuel' =>
      if date <=? until
      then date :: getDateRange_loop fuel' (addDays date 1) until
      else []
  end.

Definition getDateRange (from until : Z) : list Z :=
  getDateRange_loop (Z.to_nat ((until - from) / msPerDay + 1)) from until.

(** [lastSynced === syncUntil] compares two [Date] objects by identity.
    [getSyncUntil] returns an object it has just built ([latestSync] or the
    copy [syncUntil]), never its argument, so the test is false. *)
Definition same_Date_object : bool := false.

Definition getNextSyncDates (now : Z) : Async (list Z) :=
  lastSynced ← getLastSynced;
  syncUntil ← lift (getSyncUntil now lastSynced);
  if same_Date_object then mret []
  else
    let syncFrom := addDays lastSynced 1 in
    mret (getDateRange syncFrom syncUntil).

(** ** The orchestrator *)

(** The body of [for (const date of dates)], with the rest of the loop. *)
Fixpoint syncLoop (fetch : string → option Response) (dates : list Z)
    (movies : list Movie) : Async unit :=
  match dates with
  | [] => mret tt
  | date :: rest =>
      newMovies ← fetchMovies fetch date;
      match newMovies with
      | None => syncLoop fetch rest movies              (* [continue] *)
      | Some newMovies =>
          let previousCount := length movies in
          let movies := appendAll movies newMovies in
          (if (previousCount <? length movies)%nat
           then setMovies movies else mret tt);;
          setLastSynced date;;
          syncLoop fetch rest movies
      end
  end.

Definition syncMovies (fetch : string → option Response) (now : Z)
  : Async unit :=
  dates ← getNextSyncDates now;
  if (length dates =? 0)%nat then mret tt
  else
    movies ← getMovies;
    syncLoop fetch dates movies.

(** ** Observations on a run *)

(** The persisted checkpoint and collection of a bucket. *)
Definition checkpoint (b : gmap string blob) : option Z :=
  match b !! lastSyncedBucketKey with
  | Some o => z_iso_date_parse o
  | None => None
  end.

Definition collection (b : gmap string blob) : option (list Movie) :=
  match b !! moviesBucketKey with
  | Some (JsonText data) => z_array_Movie_parse data
  | _ => None
  end.

(** The dates for which a trace issues a request, and what it writes. *)
Definition fetched (t : list event) : list Z :=
  omap (λ e, match e with EFetch d _ => Some d | _ => None end) t.

Definition writes (t : list event) : list (string * blob) :=
  omap (λ e, match e with EPut k v => Some (k, v) | _ => None end) t.

(** What [fetchMovies] answers for a date: it depends on the network only. *)
Definition fetchDay (fetch : string → option Response) (date : Z)
  : result (option (list Movie)) :=
  (fetchMovies fetch date ∅).1.1.

(** A day whose step reaches [setLastSynced]. *)
Definition processed (fetch : string → option Response) (date : Z) : bool :=
  match fetchDay fetch date with Ok (Some _) => true | _ => false end.

(** Successive runs of the scheduled handler, each with the network and
    the clock it meets; a run that rejects leaves the bucket as it is then. *)
Fixpoint runs (rs : list ((string → option Response) * Z))
    (b : gmap string blob) : gmap string blob * list event :=
  match rs with
  | [] => (b, [])
  | (fetch, now) :: rs' =>
      let '(_, b1, t1) := syncMovies fetch now b in
      let '(b2, t2) := runs rs' b1 in
      (b2, t1 ++ t2)
  end.

(** Yesterday's day number for a clock reading. *)
Definition yesterday (now : Z) : Z := dayOf (getLatestSync now).

(** The pending days after checkpoint [c], as midnights: the days
    [c+1 .. min (c+7) yesterday]. *)
Definition pending (now c : Z) : list Z :=
  (λ j, j * msPerDay) <$> seqZ (c + 1) (Z.min 7 (yesterday now - c)).

(** What the step of a processed day does to the bucket, and its writes. *)
Definition commit (date : Z) (movies newMovies : list Movie)
    (b : gmap string blob) : gmap string blob :=
  let movies' := appendAll movies newMovies in
  <[lastSyncedBucketKey := IsoDate (dayOf date)]>
    (if (length movies <? length movies')%nat
     then <[moviesBucketKey := JsonText (JSON_stringify movies')]> b else b).

Definition commit_events (date : Z) (movies newMovies : list Movie) : list event :=
  let movies' := appendAll movies newMovies in
  (if (length movies <? length movies')%nat
   then [EPut moviesBucketKey (JsonText (JSON_stringify movies'))] else [])
  ++ [EPut lastSyncedBucketKey (IsoDate (dayOf date))].

(** ** Scenarios *)

(** 2025-01-10T12:00:00Z, the clock of the test-suite; yesterday is day
    20097 (2025-01-09). *)
Definition ex_now : Z := 20098 * msPerDay + 43200000.

Definition ex_url (yyyymmdd : string) : string :=
  ("https://popular-movies-data.stevenlu.com/movies-" +:+ yyyymmdd +:+ ".json")%string.

Definition ex_movie (id : string) : Movie :=
  mkMovie ("Title " +:+ id) id ("https://img/" +:+ id +:+ ".jpg").

Definition ex_bucket (c : Z) (movies : list Movie) : gmap string blob :=
  {[ lastSyncedBucketKey := IsoDate c;
     moviesBucketKey := JsonText (JSON_stringify movies) ]}.

Definition ex_ok (movies : list Movie) : option Response :=
  Some (mkResponse 200 (Some (JSON_stringify movies))).

(** 2025-01-08 answers 500; every other day serves the record tt1. *)
Definition ex_fetch_500_then_ok : string → option Response :=
  λ url, if String.eqb url (ex_url "20250108")
         then Some (mkResponse 500 None) else ex_ok [ex_movie "tt1"].

(** 2025-01-09 serves [[{ bad: "data" }]]; every other day serves tt1. *)
Definition ex_fetch_ok_then_bad : string → option Response :=
  λ url, if String.eqb url (ex_url "20250109")
         then Some (mkResponse 200 (Some (JArr [JObj [("bad"%string, JStr "data")]])))
         else ex_ok [ex_movie "tt1"].

Definition ex_fetch_404 : string → option Response :=
  λ _, Some (mkResponse 404 None).

Definition ex_fetch_empty : string → option Response := λ _, ex_ok [].

Definition ex_fetch_not_json : string → option Response :=
  λ _, Some (mkResponse 200 None).

Definition ex_fetch_tt2 : string → option Response := λ _, ex_ok [ex_movie "tt2"].

Definition ex_run_500_then_ok :=
  syncMovies ex_fetch_500_then_ok ex_now (ex_bucket 20095 []).

Definition ex_dup : list Movie := [mkMovie "A" "tt1" "a"; mkMovie "B" "tt1" "b"].

Definition ex_run_dup :=
  syncMovies ex_fetch_tt2 ex_now (ex_bucket 20095 ex_dup).

(** ** The Worker entry points ([src/index.ts]) *)

Module Worker.

Record HttpResponse := mkHttpResponse {
  http_status : Z;
  http_body : blob;
  content_type : option string;
}.

(** The [fetch] handler, given [new URL(request.url).pathname]. *)
Definition fetch (pathname : string) : Async HttpResponse :=
  if negb (String.eqb pathname "/")
  then mret (mkHttpResponse 404 (PlainText "Not Found") None)
  else
    movies ← getMovies;
    mret (mkHttpResponse 200 (JsonText (JSON_stringify movies))
            (Some "application/json"%string)).

(** The [scheduled] handler. *)
Definition scheduled (fetch : string → option Response) (now : Z) : Async unit :=
  syncMovies fetch now.

End Worker.

(** ** The one-shot historic fetch (the [fetchAllHistoric] revision of
    [src/lib/movies/api.ts], with its [Movie] schema) *)

Module Historic.

Record Movie := mkMovie {
  title : string;
  tmdb_id : Z;
  imdb_id : string;
  poster_url : string;
  genres : list string;
}.

(** A response of the remote: its status and the value of
    [z.array(Movie).parse(await response.json())], [None] when either
    throws. *)
Record Response := mkResponse {
  status : Z;
  parsed : option (list Movie);
}.

Definition ok (r : Response) : bool := (200 <=? status r) && (status r <=? 299).

(** [new Date(2025, 7, 1)], 1 August 2025 *)
Definition startDate : Z := 20301 * msPerDay.

(** [fetchMovies(url)]; [None] when the promise rejects ([fetch] rejects,
    or the body does not parse or does not fit the schema). *)
Definition fetchMovies (fetch : string → option Response) (url : string)
  : option (list Movie) :=
  match fetch url with
  | None => None
  | Some response => if negb (ok response) then Some [] else parsed response
  end.

Definition getHistoricUrl (date : Z) : string :=
  let baseUrl := "https://popular-movies-data.stevenlu.com"%string in
  let year := getFullYear date in
  let month := padStart2 (getMonth date + 1) in
  let day := padStart2 (getDate date) in
  (baseUrl +:+ "/movies-" +:+ pretty year +:+ month +:+ day +:+ ".json")%string.

(** The [while (date <= until)] loop of [getAllHistoricUrls]. *)
Fixpoint getAllHistoricUrls_loop (fuel : nat) (date until : Z) : list string :=
  match fuel with
  | O => []
  | S fuel' =>
      if date <=? until
      then getHistoricUrl date :: getAllHistoricUrls_loop fuel' (addDays date 1) until
      else []
  end.

(** [getAllHistoricUrls]; [None] is the
    [Error("Date must be on or after 2 December 2019")]. *)
Definition getAllHistoricUrls (until : Z) : option (list string) :=
  if until <? startDate then None
  else Some (getAllHistoricUrls_loop
               (Z.to_nat ((until - startDate) / msPerDay + 1)) startDate until).

Definition appendUnique (movies : list Movie) (newMovie : Movie) : list Movie :=
  match List.find (fun movie => tmdb_id movie =? tmdb_id newMovie) movies with
  | Some _ => movies
  | None => movies ++ [newMovie]
  end.

(** [fetchAllHistoric]: the requests are issued in the order of the URLs
    and [Promise.all] keeps that order; a request that rejects counts as
    [[]]. *)
Definition fetchAllHistoric (fetch : string → option Response) (now : Z)
  : option (list Movie) :=
  let yesterday := addDays now (-1) in
  match getAllHistoricUrls yesterday with
  | None => None
  | Some urls =>
      let movieArrays :=
        (λ url, match fetchMovies fetch url with
                | Some fetchedMovies => fetchedMovies
                | None => []                         (* [catch] *)
                end) <$> urls in
      Some (fold_left
              (λ movies fetchedMovies, fold_left appendUnique fetchedMovies movies)
              movieArrays [])
  end.

End Historic.

(** ** Further observations *)

(** The records served on the processed days of a list of days, in order. *)
Definition served (fetch : string → option Response) (dates : list Z)
  : list Movie :=
  concat ((λ d, match fetchDay fetch d with
                | Ok (Some newMovies) => newMovies
                | _ => []
                end) <$> dates).

(** The URLs a trace requests. *)
Definition requested (t : list event) : list string :=
  omap (λ e, match e with EFetch _ url => Some url | _ => None end) t.

(** The day number of a calendar date (the inverse of [civil]). *)
Definition days_from_civil (y m d : Z) : Z :=
  let y := if m <=? 2 then y - 1 else y in
  let era := y / 400 in
  let yoe := y - era * 400 in
  let mp := if 2 <? m then m - 3 else m + 9 in
  let doy := (153 * mp + 2) / 5 + d - 1 in
  let doe := yoe * 365 + yoe / 4 - yoe / 100 + doy in
  era * 146097 + doe - 719468.

(** ** Further scenarios *)

(** A persisted record with a key the schema does not list. *)
Definition ex_json_extra_key : json :=
  JObj [("title", JStr "A"); ("imdb_id", JStr "tt1"); ("poster_url", JStr "a");
        ("year", JNum 2020)]%string.

(** A persisted record without [poster_url]. *)
Definition ex_json_no_poster : json :=
  JObj [("title", JStr "Bad"); ("imdb_id", JStr "tt-bad")]%string.

(** A bucket that holds [movies.json] only. *)
Definition ex_movies_only (o : blob) : gmap string blob :=
  {[ moviesBucketKey := o ]}.

(** 2025-01-09 cannot be reached; every other day serves tt1. *)
Definition ex_fetch_ok_then_down : string → option Response :=
  λ url, if String.eqb url (ex_url "20250109") then None
         else ex_ok [ex_movie "tt1"].

(** 2025-08-03T12:00:00Z *)
Definition ex_now_august : Z := 20303 * msPerDay + 43200000.

Definition ex_historic_movie (id : Z) : Historic.Movie :=
  Historic.mkMovie "T" id "tt" "p" [].

(** Every day serves the movies 1 and 2, except 2025-08-02 which answers
    503. *)
Definition ex_historic_fetch : string → option Historic.Response :=
  λ url, if String.eqb url (ex_url "20250802")
         then Some (Historic.mkResponse 503 None)
         else Some (Historic.mkResponse 200
                      (Some [ex_historic_movie 1; ex_historic_movie 2])).

(** ** The model on the scenarios of the test-suite *)

Example getUrl_basic : getUrl (10957 * msPerDay) = ex_url "20000101".
Proof. reflexivity. Qed.

Example getUrl_single_digits : getUrl (11021 * msPerDay) = ex_url "20000305".
Proof. reflexivity. Qed.

Example getUrl_leap_year : getUrl (18321 * msPerDay) = ex_url "20200229".
Proof. reflexivity. Qed.

Example getEarliestSync_civil : civil (dayOf getEarliestSync) = (2019, 12, 2).
Proof. reflexivity. Qed.

Example ex_now_civil :
  civil (dayOf ex_now) = (2025, 1, 10) ∧ civil (yesterday ex_now) = (2025, 1, 9).
Proof. split; reflexivity. Qed.

(** "no pending dates when last_synced is yesterday": one read, nothing else. *)
Example sync_nothing_pending :
  syncMovies ex_fetch_empty ex_now (ex_bucket 20097 []) =
  (Ok tt, ex_bucket 20097 [], [EGet lastSyncedBucketKey]).
Proof. reflexivity. Qed.

(** "first run bootstrap": on an empty bucket the run initialises the
    checkpoint to 2019-12-01 and the collection to [[]], then processes
    2019-12-02 .. 2019-12-08. *)
Example sync_bootstrap :
  let '(r, b, t) := syncMovies ex_fetch_404 ex_now ∅ in
  r = Ok tt ∧ checkpoint b = Some 18238 ∧ collection b = Some [] ∧
  getUrl <$> fetched t =
    ex_url <$> ["20191202"; "20191203"; "20191204"; "20191205"; "20191206";
                "20191207"; "20191208"]%string.
Proof. vm_compute. done. Qed.

(** "de-duplication by imdb_id across days": checkpoint 2025-01-07, both
    pending days serve tt1; one record is kept, the collection is written
    once and the checkpoint ends at 2025-01-09. *)
Example sync_dedup_across_days :
  let '(r, b, t) :=
    syncMovies (λ _, ex_ok [ex_movie "tt1"]) ex_now (ex_bucket 20095 []) in
  r = Ok tt ∧ checkpoint b = Some 20097 ∧ collection b = Some [ex_movie "tt1"] ∧
  length (filter (λ w, w.1 = moviesBucketKey) (writes t)) = 1%nat.
Proof. vm_compute. done. Qed.

(** A persisted collection with a repeated [imdb_id] is written back with
    the repetition when the run adds a record. *)
Example sync_keeps_persisted_duplicates :
  collection ex_run_dup.1.2 = Some (ex_dup ++ [ex_movie "tt2"]).
Proof. reflexivity. Qed.

(** ** Schema and merge lemmas *)

Lemma Movie_parse_json m : Movie_parse (Movie_json m) = Some m.
Proof. by destruct m. Qed.

Lemma z_array_Movie_parse_stringify movies :
  z_array_Movie_parse (JSON_stringify movies) = Some movies.
Proof.
  unfold JSON_stringify, z_array_Movie_parse.
  induction movies as [|m movies IH]; [done|].
  rewrite fmap_cons. cbn [mapM]. rewrite Movie_parse_json. cbn.
  by rewrite IH.
Qed.

Lemma find_imdb_Some movies newMovie m :
  find_imdb movies newMovie = Some m →
  m ∈ movies ∧ imdb_id m = imdb_id newMovie.
Proof.
  intros [Hin Heq]%find_some. split; [by apply list_elem_of_In|].
  by apply String.eqb_eq.
Qed.

Lemma find_imdb_None movies newMovie :
  find_imdb movies newMovie = None ↔
  ∀ m, m ∈ movies → imdb_id m ≠ imdb_id newMovie.
Proof.
  split.
  - intros Hnone m Hin%list_elem_of_In.
    apply (find_none _ _ Hnone) in Hin. by apply String.eqb_neq.
  - intros Hall. destruct (find_imdb movies newMovie) as [m|] eqn:E; [|done].
    apply find_imdb_Some in E as [Hin Heq]. by destruct (Hall m Hin).
Qed.

Lemma appendUnique_present movies newMovie :
  (∃ m, m ∈ movies ∧ imdb_id m = imdb_id newMovie) →
  appendUnique movies newMovie = movies.
Proof.
  intros (m & Hin & Heq). unfold appendUnique.
  destruct (find_imdb movies newMovie) eqn:E; [done|].
  rewrite find_imdb_None in E. by destruct (E m Hin).
Qed.

Lemma appendUnique_absent movies newMovie :
  (∀ m, m ∈ movies → imdb_id m ≠ imdb_id newMovie) →
  appendUnique movies newMovie = movies ++ [newMovie].
Proof.
  intros Hall%find_imdb_None. unfold appendUnique. by rewrite Hall.
Qed.

Lemma appendUnique_prefix movies newMovie :
  movies `prefix_of` appendUnique movies newMovie.
Proof.
  unfold appendUnique. destruct (find_imdb movies newMovie); [done|].
  by apply prefix_app_r.
Qed.

Lemma appendAll_prefix movies newMovies :
  movies `prefix_of` appendAll movies newMovies.
Proof.
  unfold appendAll. revert movies.
  induction newMovies as [|m ms IH]; intros movies; [done|].
  cbn [fold_left]. etrans; [apply appendUnique_prefix | apply IH].
Qed.

Lemma appendUnique_NoDup movies newMovie :
  NoDup (imdb_id <$> movies) →
  NoDup (imdb_id <$> appendUnique movies newMovie).
Proof.
  intros Hnd. unfold appendUnique.
  destruct (find_imdb movies newMovie) eqn:E; [done|].
  rewrite find_imdb_None in E.
  rewrite fmap_app. apply NoDup_app. split_and!; [done| |apply NoDup_singleton].
  intros i (m & -> & Hin)%list_elem_of_fmap Heq%list_elem_of_singleton.
  by apply (E m).
Qed.

Lemma appendAll_NoDup movies newMovies :
  NoDup (imdb_id <$> movies) →
  NoDup (imdb_id <$> appendAll movies newMovies).
Proof.
  unfold appendAll. revert movies.
  induction newMovies as [|m ms IH]; intros movies Hnd; [done|].
  cbn [fold_left]. by apply IH, appendUnique_NoDup.
Qed.

Lemma appendAll_length movies newMovies :
  (length movies ≤ length (appendAll movies newMovies))%nat.
Proof. apply prefix_length, appendAll_prefix. Qed.

(** ** Calendar arithmetic and the window *)

Lemma msPerDay_pos : 0 < msPerDay.
Proof. done. Qed.

Lemma dayOf_mul k : dayOf (k * msPerDay) = k.
Proof. unfold dayOf. by apply Z.div_mul. Qed.

Lemma dayOf_addDays t k : dayOf (addDays t k) = dayOf t + k.
Proof. unfold dayOf, addDays. by apply Z.div_add. Qed.

Lemma mul_le_dayOf k t : k * msPerDay ≤ t ↔ k ≤ dayOf t.
Proof.
  unfold dayOf. pose proof msPerDay_pos as HD. split; intros H.
  - apply Z.div_le_lower_bound; lia.
  - pose proof (Z.mul_div_le t msPerDay HD). nia.
Qed.

Lemma dayOf_lt_mul k t : t < k * msPerDay ↔ dayOf t < k.
Proof. pose proof (mul_le_dayOf k t). lia. Qed.

Lemma yesterday_eq now : yesterday now = dayOf now - 1.
Proof. unfold yesterday, getLatestSync. by rewrite dayOf_addDays. Qed.

Lemma addDays_mul k j : addDays (k * msPerDay) j = (k + j) * msPerDay.
Proof. unfold addDays. lia. Qed.

(** The loop leaves by its own test: fuel beyond the number of days in the
    range changes nothing. *)
Lemma getDateRange_loop_fuel fuel fuel' date until :
  (Z.to_nat ((until - date) / msPerDay + 1) ≤ fuel)%nat →
  (Z.to_nat ((until - date) / msPerDay + 1) ≤ fuel')%nat →
  getDateRange_loop fuel date until = getDateRange_loop fuel' date until.
Proof.
  revert fuel' date. induction fuel as [|fuel IH]; intros fuel' date H1 H2.
  - assert ((until - date) / msPerDay + 1 ≤ 0) as Hn by lia.
    assert (until < date) as Hlt.
    { destruct (decide (until < date)); [done|].
      assert (0 ≤ (until - date) / msPerDay); [|lia].
      apply Z.div_pos; [lia|done]. }
    destruct fuel'; cbn; [done|]. by rewrite (proj2 (Z.leb_gt _ _)).
  - cbn [getDateRange_loop]. destruct (date <=? until) eqn:E.
    + apply Z.leb_le in E.
      assert ((until - addDays date 1) / msPerDay + 1 = (until - date) / msPerDay) as Hstep.
      { unfold addDays.
        replace (until - (date + 1 * msPerDay)) with (until - date + (-1) * msPerDay) by lia.
        rewrite Z.div_add; [lia|done]. }
      assert (0 ≤ (until - date) / msPerDay) by (apply Z.div_pos; [lia|done]).
      destruct fuel' as [|fuel']; [lia|]. cbn [getDateRange_loop].
      rewrite (proj2 (Z.leb_le _ _)); [|done]. f_equal. apply IH; lia.
    + destruct fuel'; cbn [getDateRange_loop]; [done|]. by rewrite E.
Qed.

Lemma getDateRange_enough_fuel fuel from until :
  (Z.to_nat ((until - from) / msPerDay + 1) ≤ fuel)%nat →
  getDateRange_loop fuel from until = getDateRange from until.
Proof. intros Hfuel. by apply getDateRange_loop_fuel. Qed.

Lemma getDateRange_loop_days fuel k until :
  getDateRange_loop fuel (k * msPerDay) until =
  (λ j, j * msPerDay) <$> seqZ k (Z.min (Z.of_nat fuel) (dayOf until - k + 1)).
Proof.
  revert k. induction fuel as [|fuel IH]; intros k.
  - by rewrite seqZ_nil; [|lia].
  - cbn [getDateRange_loop]. destruct (k * msPerDay <=? until) eqn:E.
    + apply Z.leb_le, mul_le_dayOf in E.
      rewrite addDays_mul, IH, (seqZ_cons k); [|lia].
      rewrite fmap_cons. do 3 f_equal. lia.
    + apply Z.leb_gt, dayOf_lt_mul in E. by rewrite seqZ_nil; [|lia].
Qed.

Lemma getDateRange_days k until :
  getDateRange (k * msPerDay) until =
  (λ j, j * msPerDay) <$> seqZ k (dayOf until - k + 1).
Proof.
  unfold getDateRange. rewrite getDateRange_loop_days.
  replace ((until - k * msPerDay) / msPerDay) with (dayOf until - k).
  2:{ unfold dayOf. replace (until - k * msPerDay) with (until + (-k) * msPerDay) by lia.
      rewrite Z.div_add; [lia|done]. }
  destruct (decide (0 ≤ dayOf until - k + 1)).
  - by rewrite Z2Nat.id, Z.min_id.
  - by rewrite !seqZ_nil; [| lia..].
Qed.

Lemma getSyncUntil_days now c :
  getSyncUntil now (c * msPerDay) =
  if decide (yesterday now < c) then Err InvalidLastSyncDate
  else if decide (yesterday now < c + 7) then Ok (getLatestSync now)
  else Ok ((c + 7) * msPerDay).
Proof.
  unfold getSyncUntil. rewrite addDays_mul, !Z.gtb_ltb.
  pose proof (dayOf_lt_mul c (getLatestSync now)) as H1.
  pose proof (dayOf_lt_mul (c + 7) (getLatestSync now)) as H2.
  fold (yesterday now) in H1, H2.
  repeat case_decide; repeat (case_match; try done);
    rewrite ?Z.ltb_lt, ?Z.ltb_ge in *; lia.
Qed.

(** The dates [getNextSyncDates] computes from a checkpoint that is not
    in the future. *)
Lemma window_days now c until :
  getSyncUntil now (c * msPerDay) = Ok until →
  getDateRange (addDays (c * msPerDay) 1) until = pending now c.
Proof.
  rewrite getSyncUntil_days, addDays_mul, getDateRange_days. unfold pending.
  repeat case_decide; intros [= <-].
  - fold (yesterday now). f_equal. f_equal. lia.
  - rewrite dayOf_mul. f_equal. f_equal. lia.
Qed.

(** Reading [lastSynced === syncUntil] as a comparison of time values
    would change nothing: when the two are equal the range is empty. *)
Lemma getDateRange_same_instant t : getDateRange (addDays t 1) t = [].
Proof.
  unfold getDateRange, addDays.
  replace (t - (t + 1 * msPerDay)) with (0 + (-1) * msPerDay) by lia.
  by rewrite Z.div_add.
Qed.

(** ** Running the computations *)

Lemma bind_run {A B} (m : Async A) (f : A → Async B) b :
  (m ≫= f) b =
  match m b with
  | (Ok a, b1, t1) => let '(r, b2, t2) := f a b1 in (r, b2, t1 ++ t2)
  | (Err e, b1, t1) => (Err e, b1, t1)
  end.
Proof. done. Qed.

Lemma fetchMovies_run fetch date b :
  fetchMovies fetch date b = (fetchDay fetch date, b, [EFetch date (getUrl date)]).
Proof.
  unfold fetchDay, fetchMovies. rewrite !bind_run. unfold http_fetch.
  destruct (fetch (getUrl date)) as [resp|]; [|done].
  destruct (negb (ok resp)); [by destruct (status resp =? 404)|].
  destruct (body resp) as [data|]; [|done].
  by destruct (z_array_Movie_parse data).
Qed.

Lemma syncLoop_cons fetch date rest movies b :
  syncLoop fetch (date :: rest) movies b =
  match fetchDay fetch date with
  | Err e => (Err e, b, [EFetch date (getUrl date)])
  | Ok None =>
      let '(r, b', t) := syncLoop fetch rest movies b in
      (r, b', EFetch date (getUrl date) :: t)
  | Ok (Some newMovies) =>
      let '(r, b', t) :=
        syncLoop fetch rest (appendAll movies newMovies)
          (commit date movies newMovies b) in
      (r, b', EFetch date (getUrl date) :: commit_events date movies newMovies ++ t)
  end.
Proof.
  cbn [syncLoop]. rewrite bind_run, fetchMovies_run.
  destruct (fetchDay fetch date) as [[newMovies|]|e]; [| |done].
  - rewrite !bind_run. unfold commit, commit_events, setLastSynced, setMovies.
    destruct (length movies <? length (appendAll movies newMovies))%nat; cbn;
      rewrite bind_run; unfold bucket_put; cbn;
      by destruct (syncLoop _ _ _ _) as [[??]?].
  - by destruct (syncLoop _ _ _ _) as [[??]?].
Qed.

Lemma getLastSynced_run b c :
  b !! lastSyncedBucketKey = Some (IsoDate c) →
  getLastSynced b = (Ok (c * msPerDay), b, [EGet lastSyncedBucketKey]).
Proof.
  intros Hc. unfold getLastSynced. rewrite bind_run. unfold bucket_get.
  by rewrite Hc.
Qed.

Lemma getNextSyncDates_run now b c :
  b !! lastSyncedBucketKey = Some (IsoDate c) →
  getNextSyncDates now b =
  if decide (yesterday now < c)
  then (Err InvalidLastSyncDate, b, [EGet lastSyncedBucketKey])
  else (Ok (pending now c), b, [EGet lastSyncedBucketKey]).
Proof.
  intros Hc. unfold getNextSyncDates.
  rewrite bind_run, (getLastSynced_run _ _ Hc), bind_run. unfold lift.
  destruct (getSyncUntil now (c * msPerDay)) as [until|e] eqn:E.
  - cbn. rewrite (window_days _ _ _ E).
    rewrite getSyncUntil_days in E. by case_decide.
  - rewrite getSyncUntil_days in E. repeat case_decide; by simplify_eq.
Qed.

Lemma pending_nil now c :
  ¬ yesterday now < c → (pending now c = [] ↔ c = yesterday now).
Proof.
  intros Hle. unfold pending. split.
  - intros Hnil%fmap_nil_inv. destruct (decide (c = yesterday now)); [done|].
    rewrite seqZ_cons in Hnil; [done|lia].
  - intros ->. by rewrite seqZ_nil; [|lia].
Qed.

Lemma getMovies_run b movies :
  collection b = Some movies →
  getMovies b = (Ok movies, b, [EGet moviesBucketKey]).
Proof.
  unfold collection, getMovies. rewrite bind_run. unfold bucket_get.
  destruct (b !! moviesBucketKey) as [[| data |]|]; try done.
  cbn. by intros ->.
Qed.

(** [getMovies] never touches the checkpoint nor the network, and what it
    returns is what the bucket holds afterwards. *)
Lemma getMovies_inv b r b' t :
  getMovies b = (r, b', t) →
  b' !! lastSyncedBucketKey = b !! lastSyncedBucketKey ∧ fetched t = [] ∧
  (∀ movies, r = Ok movies → collection b' = Some movies) ∧
  (∀ k v, (k, v) ∈ writes t →
     k = moviesBucketKey ∧ v = JsonText (JSON_stringify []) ∧
     b !! moviesBucketKey = None).
Proof.
  unfold getMovies. rewrite bind_run. unfold bucket_get.
  destruct (b !! moviesBucketKey) as [o|] eqn:Hb; rewrite <- ?Hb.
  - assert (∀ k v, (k, v) ∈ writes [EGet moviesBucketKey] → False) as Hw.
    { cbn. by intros ?? ?%elem_of_nil. }
    assert (∀ e, (Err e, b, [EGet moviesBucketKey]) = (r, b', t) →
      b' !! lastSyncedBucketKey = b !! lastSyncedBucketKey ∧ fetched t = [] ∧
      (∀ movies, r = Ok movies → collection b' = Some movies) ∧
      (∀ k v, (k, v) ∈ writes t →
         k = moviesBucketKey ∧ v = JsonText (JSON_stringify []) ∧
         b !! moviesBucketKey = None)) as Herr.
    { intros e [= <- <- <-]. split_and!; [done|done|done|].
      intros k v Hin. by destruct (Hw k v). }
    destruct o as [| data |]; cbn; [apply Herr| |apply Herr].
    destruct (z_array_Movie_parse data) as [movies|] eqn:Hp; cbn; [|apply Herr].
    intros [= <- <- <-]. split_and!; [done|done| |].
    + intros ? [= <-]. unfold collection. by rewrite Hb.
    + intros k v Hin. by destruct (Hw k v).
  - cbn. intros [= <- <- <-]. split_and!; [by rewrite lookup_insert_ne|done| |].
    + intros ? [= <-]. unfold collection. by rewrite lookup_insert_eq.
    + by intros k v [= -> ->]%list_elem_of_singleton.
Qed.

Lemma syncMovies_run fetch now b c :
  b !! lastSyncedBucketKey = Some (IsoDate c) →
  syncMovies fetch now b =
  if decide (yesterday now < c)
  then (Err InvalidLastSyncDate, b, [EGet lastSyncedBucketKey])
  else if decide (c = yesterday now)
  then (Ok tt, b, [EGet lastSyncedBucketKey])
  else
    match getMovies b with
    | (Ok movies, b1, t1) =>
        let '(r, b2, t2) := syncLoop fetch (pending now c) movies b1 in
        (r, b2, EGet lastSyncedBucketKey :: t1 ++ t2)
    | (Err e, b1, t1) => (Err e, b1, EGet lastSyncedBucketKey :: t1)
    end.
Proof.
  intros Hc. unfold syncMovies.
  rewrite bind_run, (getNextSyncDates_run _ _ _ Hc).
  case_decide as Hfut; [done|].
  pose proof (pending_nil now c Hfut) as Hnil.
  case_decide as Hy.
  - by rewrite (proj2 Hnil Hy).
  - destruct (pending now c) as [|d ds] eqn:Hp; [by destruct Hy; apply Hnil|].
    cbn [length Nat.eqb]. rewrite bind_run.
    destruct (getMovies b) as [[[movies|e] b1] t1]; [|done].
    by destruct (syncLoop _ _ _ _) as [[??]?].
Qed.

(** ** The loop *)

Lemma fetched_cons_fetch d url t : fetched (EFetch d url :: t) = d :: fetched t.
Proof. done. Qed.

Lemma fetched_app t1 t2 : fetched (t1 ++ t2) = fetched t1 ++ fetched t2.
Proof. apply omap_app. Qed.

Lemma writes_app t1 t2 : writes (t1 ++ t2) = writes t1 ++ writes t2.
Proof. apply omap_app. Qed.

Lemma fetched_commit_events d movies newMovies :
  fetched (commit_events d movies newMovies) = [].
Proof. unfold commit_events. by case_match. Qed.

Lemma commit_lastSynced d movies newMovies b :
  commit d movies newMovies b !! lastSyncedBucketKey = Some (IsoDate (dayOf d)).
Proof. unfold commit. by rewrite lookup_insert_eq. Qed.

Lemma processed_true fetch d :
  processed fetch d = true ↔ ∃ newMovies, fetchDay fetch d = Ok (Some newMovies).
Proof.
  unfold processed. destruct (fetchDay fetch d) as [[l|]|e]; split;
    try done; try (intros [? [=]]); eauto.
Qed.

Lemma syncLoop_nil fetch movies b : syncLoop fetch [] movies b = (Ok tt, b, []).
Proof. done. Qed.

(** Unfold one iteration and name the outcome of the rest of the loop. *)
Ltac loop_step H d :=
  rewrite syncLoop_cons in H;
  let E := fresh "Hday" in
  let Er := fresh "Hrest" in
  destruct (fetchDay _ d) as [[?newMovies|]|?e] eqn:E;
  [ destruct (syncLoop _ _ _ _) as [[?r ?b] ?t] eqn:Er
  | destruct (syncLoop _ _ _ _) as [[?r ?b] ?t] eqn:Er
  | ];
  simplify_eq.

(** The requests of the loop are those of an initial segment of [dates]:
    all of them when the loop completes, up to the rejecting day otherwise. *)
Lemma syncLoop_fetched fetch dates movies b r b' t :
  syncLoop fetch dates movies b = (r, b', t) →
  match r with
  | Ok _ => fetched t = dates ∧ ∀ d, d ∈ dates → ∃ o, fetchDay fetch d = Ok o
  | Err e => ∃ pre d post, dates = pre ++ d :: post ∧ fetched t = pre ++ [d] ∧
      fetchDay fetch d = Err e ∧ ∀ x, x ∈ pre → ∃ o, fetchDay fetch x = Ok o
  end.
Proof.
  revert movies b r b' t.
  induction dates as [|d dates IH]; intros movies b r b' t H.
  { rewrite syncLoop_nil in H. simplify_eq. cbn. split; [done|]. by intros ? ?%elem_of_nil. }
  loop_step H d.
  - apply IH in Hrest. rewrite fetched_cons_fetch, fetched_app, fetched_commit_events.
    destruct r.
    + destruct Hrest as [-> Hall]. split; [done|].
      intros x [->|Hx]%elem_of_cons; eauto.
    + destruct Hrest as (pre & x & post & -> & -> & Hx & Hpre).
      exists (d :: pre), x, post. split_and!; [done..|].
      intros y [->|Hy]%elem_of_cons; eauto.
  - apply IH in Hrest. rewrite fetched_cons_fetch.
    destruct r.
    + destruct Hrest as [-> Hall]. split; [done|].
      intros x [->|Hx]%elem_of_cons; eauto.
    + destruct Hrest as (pre & x & post & -> & -> & Hx & Hpre).
      exists (d :: pre), x, post. split_and!; [done..|].
      intros y [->|Hy]%elem_of_cons; eauto.
  - exists [], d, dates. split_and!; [done..|]. by intros ? ?%elem_of_nil.
Qed.

Lemma syncLoop_fetched_prefix fetch dates movies b r b' t :
  syncLoop fetch dates movies b = (r, b', t) → fetched t `prefix_of` dates.
Proof.
  intros H%syncLoop_fetched. destruct r.
  - by destruct H as [-> _].
  - destruct H as (pre & d & post & -> & -> & _).
    apply prefix_app, prefix_cons, prefix_nil.
Qed.

(** The checkpoint after the loop is the last requested day whose step
    reached [setLastSynced], or the one before the loop if there is none. *)
Lemma syncLoop_checkpoint fetch dates movies b r b' t :
  syncLoop fetch dates movies b = (r, b', t) →
  b' !! lastSyncedBucketKey =
  match last (filter (λ d, processed fetch d) (fetched t)) with
  | Some d => Some (IsoDate (dayOf d))
  | None => b !! lastSyncedBucketKey
  end.
Proof.
  revert movies b r b' t.
  induction dates as [|d dates IH]; intros movies b r b' t H.
  { rewrite syncLoop_nil in H. by simplify_eq. }
  loop_step H d.
  - apply IH in Hrest. rewrite fetched_cons_fetch, fetched_app, fetched_commit_events.
    cbn [app]. rewrite filter_cons_True, last_cons.
    2:{ unfold processed. by rewrite Hday. }
    rewrite Hrest, commit_lastSynced. by destruct (last _).
  - apply IH in Hrest. rewrite fetched_cons_fetch, filter_cons_False; [done|].
    unfold processed. rewrite Hday. cbn. tauto.
  - rewrite fetched_cons_fetch, filter_cons_False; [done|].
    unfold processed. rewrite Hday. cbn. tauto.
Qed.

(** Every collection the loop writes extends the one it started from. *)
Lemma syncLoop_writes fetch dates movies b r b' t k v :
  syncLoop fetch dates movies b = (r, b', t) →
  (k, v) ∈ writes t →
  (k = lastSyncedBucketKey ∧ ∃ d, d ∈ dates ∧ processed fetch d = true ∧
     v = IsoDate (dayOf d)) ∨
  (k = moviesBucketKey ∧ ∃ l, v = JsonText (JSON_stringify l) ∧
     movies `prefix_of` l).
Proof.
  revert movies b r b' t.
  induction dates as [|d dates IH]; intros movies b r b' t H Hin.
  { rewrite syncLoop_nil in H. simplify_eq. by apply elem_of_nil in Hin. }
  loop_step H d.
  - cbn in Hin. rewrite writes_app in Hin.
    apply elem_of_app in Hin as [Hin|Hin].
    + unfold commit_events in Hin. rewrite writes_app in Hin.
      apply elem_of_app in Hin as [Hin|Hin].
      * case_match; cbn in Hin; [|by apply elem_of_nil in Hin].
        apply list_elem_of_singleton in Hin as [= -> ->]. right.
        split; [done|]. eexists. split; [done|]. apply appendAll_prefix.
      * apply list_elem_of_singleton in Hin as [= -> ->]. left.
        split; [done|]. exists d. split_and!; [left| |done].
        unfold processed. by rewrite Hday.
    + destruct (IH _ _ _ _ _ Hrest Hin) as [(-> & x & Hx & ?)|(-> & l & -> & Hl)].
      * left. split; [done|]. exists x. split; [by right|done].
      * right. split; [done|]. exists l. split; [done|].
        etrans; [apply appendAll_prefix|done].
  - cbn in Hin.
    destruct (IH _ _ _ _ _ Hrest Hin) as [(-> & x & Hx & ?)|(-> & l & -> & Hl)].
    + left. split; [done|]. exists x. split; [by right|done].
    + by right; eauto.
  - by apply elem_of_nil in Hin.
Qed.

(** A rejecting day ends the loop where the days before it left it. *)
Lemma syncLoop_abort fetch pre d post movies b e :
  (∀ x, x ∈ pre → ∃ o, fetchDay fetch x = Ok o) →
  fetchDay fetch d = Err e →
  ∃ b1 t1, syncLoop fetch pre movies b = (Ok tt, b1, t1) ∧
    syncLoop fetch (pre ++ d :: post) movies b =
      (Err e, b1, t1 ++ [EFetch d (getUrl d)]).
Proof.
  intros Hpre Hd. revert movies b.
  induction pre as [|x pre IH]; intros movies b.
  - exists b, []. split; [done|]. cbn [app]. by rewrite syncLoop_cons, Hd.
  - destruct (Hpre x) as [o Hx]; [left|].
    assert (∀ y, y ∈ pre → ∃ o, fetchDay fetch y = Ok o) as Hpre'
      by (intros; apply Hpre; by right).
    rewrite <- app_comm_cons, !syncLoop_cons, Hx. destruct o as [newMovies|].
    + destruct (IH Hpre' (appendAll movies newMovies)
        (commit x movies newMovies b)) as (b1 & t1 & -> & ->).
      eexists _, _. split; [done|]. by rewrite <- app_comm_cons, <- app_assoc.
    + destruct (IH Hpre' movies b) as (b1 & t1 & -> & ->).
      by eexists _, _.
Qed.

(** Days that are not processed leave the bucket alone. *)
Lemma syncLoop_unprocessed fetch dates movies b r b' t :
  (∀ x, x ∈ dates → processed fetch x = false) →
  syncLoop fetch dates movies b = (r, b', t) → b' = b ∧ writes t = [].
Proof.
  revert movies b r b' t.
  induction dates as [|d dates IH]; intros movies b r b' t Hall H.
  { rewrite syncLoop_nil in H. by simplify_eq. }
  assert (processed fetch d = false) as Hd by (apply Hall; left).
  loop_step H d.
  - unfold processed in Hd. by rewrite Hday in Hd.
  - destruct (IH movies b r b' t0) as [-> Hw]; [|done|done].
    intros; apply Hall; by right.
  - done.
Qed.

(** ** One run, and runs in succession *)

Lemma pending_elem now c x :
  x ∈ pending now c ↔
  ∃ j, x = j * msPerDay ∧ c < j ∧ j ≤ c + 7 ∧ j ≤ yesterday now.
Proof.
  unfold pending. rewrite list_elem_of_fmap. setoid_rewrite elem_of_seqZ.
  split; intros (j & ? & ?); exists j; (split; [done|lia]).
Qed.

Lemma seqZ_sorted m n : StronglySorted Z.lt (seqZ m n).
Proof.
  destruct (decide (n ≤ 0)); [rewrite seqZ_nil by done; constructor|].
  rewrite <- (Z2Nat.id n) by lia. generalize (Z.to_nat n) as k. intros k.
  revert m. induction k as [|k IH]; intros m; [constructor|].
  rewrite seqZ_cons by lia. constructor.
  - replace (Z.pred (Z.of_nat (S k))) with (Z.of_nat k) by lia. apply IH.
  - apply Forall_seqZ. lia.
Qed.

Lemma pending_sorted now c : StronglySorted Z.lt (pending now c).
Proof.
  unfold pending. eapply StronglySorted_fmap; [|apply seqZ_sorted].
  intros x y Hxy. pose proof msPerDay_pos. cbn. nia.
Qed.

(** In an ascending list the last element that satisfies [P] is at or
    after every element that does. *)
Lemma last_filter_sorted (P : Z → Prop) `{!∀ x, Decision (P x)} l x y :
  StronglySorted Z.lt l → x ∈ l → P x →
  last (filter P l) = Some y → x ≤ y.
Proof.
  intros Hs Hx HP (l1 & l2 & -> & Hl2)%last_filter_Some.
  apply elem_of_app in Hx as [Hx|Hx].
  - assert (x < y); [|lia].
    eapply (StronglySorted_app_1_elem_of _ _ _ _ _ Hs Hx). by left.
  - apply elem_of_cons in Hx as [->|Hx]; [lia|].
    rewrite Forall_forall in Hl2. by destruct (Hl2 x Hx).
Qed.

(** What a run from a persisted checkpoint [c] requests, and where it
    leaves the checkpoint. *)
Lemma syncMovies_inv fetch now b c r b' t :
  b !! lastSyncedBucketKey = Some (IsoDate c) →
  syncMovies fetch now b = (r, b', t) →
  fetched t `prefix_of` pending now c ∧
  b' !! lastSyncedBucketKey =
    match last (filter (λ d, processed fetch d) (fetched t)) with
    | Some d => Some (IsoDate (dayOf d))
    | None => Some (IsoDate c)
    end ∧
  (∀ e, r = Err e → fetched t ≠ [] →
     ∃ d, last (fetched t) = Some d ∧ fetchDay fetch d = Err e) ∧
  (r = Ok tt → fetched t = pending now c).
Proof.
  intros Hc. rewrite (syncMovies_run _ _ _ _ Hc).
  case_decide as Hfut; [intros [= <- <- <-]; split_and!; try done; apply prefix_nil|].
  case_decide as Hy.
  { intros [= <- <- <-]. split_and!; try done; [apply prefix_nil|].
    intros _. symmetry. by apply pending_nil. }
  destruct (getMovies b) as [[[movies|e] b1] t1] eqn:Hget;
    apply getMovies_inv in Hget as (Hb1 & Hf1 & _).
  - destruct (syncLoop _ _ _ _) as [[r2 b2] t2] eqn:Hloop.
    intros [= <- <- <-].
    change (EGet lastSyncedBucketKey :: t1 ++ t2)
      with ([EGet lastSyncedBucketKey] ++ t1 ++ t2).
    rewrite !fetched_app, Hf1. cbn [app fetched omap list_omap].
    split_and!.
    + by eapply syncLoop_fetched_prefix.
    + rewrite (syncLoop_checkpoint _ _ _ _ _ _ _ Hloop), Hb1, Hc. done.
    + intros e -> _. apply syncLoop_fetched in Hloop.
      destruct Hloop as (pre & d & post & _ & -> & Hd & _).
      exists d. by rewrite last_snoc.
    + intros ->. apply syncLoop_fetched in Hloop. by destruct Hloop.
  - intros [= <- <- <-].
    change (EGet lastSyncedBucketKey :: t1) with ([EGet lastSyncedBucketKey] ++ t1).
    rewrite !fetched_app, Hf1. cbn. split_and!; [apply prefix_nil|by rewrite Hb1| |done].
    by intros ? _ [].
Qed.

(** Monotonicity: a run never moves the checkpoint back, and requests
    only days after the checkpoint it started from. *)
Lemma syncMovies_monotone fetch now b c r b' t :
  b !! lastSyncedBucketKey = Some (IsoDate c) →
  syncMovies fetch now b = (r, b', t) →
  (∃ c', b' !! lastSyncedBucketKey = Some (IsoDate c') ∧ c ≤ c') ∧
  ∀ x, x ∈ fetched t → c < dayOf x.
Proof.
  intros Hc Hrun.
  destruct (syncMovies_inv _ _ _ _ _ _ _ Hc Hrun) as (Hpre & Hb' & _).
  assert (∀ x, x ∈ fetched t → c < dayOf x) as Hafter.
  { intros x Hx. eapply elem_of_prefix in Hx; [|done].
    apply pending_elem in Hx as (j & -> & ? & _). by rewrite dayOf_mul. }
  split; [|done].
  destruct (last (filter _ (fetched t))) as [d|] eqn:Hlast.
  - exists (dayOf d). split; [done|].
    apply last_Some_elem_of, list_elem_of_filter in Hlast as [_ Hd].
    apply Hafter in Hd. lia.
  - by exists c.
Qed.

Lemma runs_after_checkpoint rs b c x :
  b !! lastSyncedBucketKey = Some (IsoDate c) →
  x ∈ fetched (runs rs b).2 → c < dayOf x.
Proof.
  revert b c. induction rs as [|[fetch now] rs IH]; intros b c Hc Hx.
  { by apply elem_of_nil in Hx. }
  cbn [runs] in Hx.
  destruct (syncMovies fetch now b) as [[r b1] t1] eqn:Hrun.
  destruct (runs rs b1) as [b2 t2] eqn:Hruns. cbn in Hx.
  destruct (syncMovies_monotone _ _ _ _ _ _ _ Hc Hrun) as [(c' & Hc' & Hle) Hafter].
  rewrite fetched_app in Hx. apply elem_of_app in Hx as [Hx|Hx]; [by apply Hafter|].
  specialize (IH b1 c' Hc'). rewrite Hruns in IH. specialize (IH Hx). lia.
Qed.

Lemma fetchDay_eq fetch date :
  fetchDay fetch date =
  match fetch (getUrl date) with
  | None => Err FetchError
  | Some resp =>
      if negb (ok resp) then
        if status resp =? 404 then Ok (Some []) else Ok None
      else
        match body resp with
        | None => Ok (Some [])
        | Some data =>
            match z_array_Movie_parse data with
            | Some movies => Ok (Some movies)
            | None => Err ZodError
            end
        end
  end.
Proof.
  unfold fetchDay, fetchMovies. rewrite bind_run. unfold http_fetch.
  destruct (fetch (getUrl date)) as [resp|]; [|done].
  destruct (negb (ok resp)); [by destruct (status resp =? 404)|].
  destruct (body resp) as [data|]; [|done].
  by destruct (z_array_Movie_parse data).
Qed.

Lemma fetchDay_unavailable fetch date resp :
  fetch (getUrl date) = Some resp → ok resp = false → status resp ≠ 404 →
  fetchDay fetch date = Ok None.
Proof.
  intros Hf Hok Hst. rewrite fetchDay_eq, Hf, Hok. cbn.
  by rewrite (proj2 (Z.eqb_neq _ _)).
Qed.

Lemma dayOf_pending_inj now c x y :
  x ∈ pending now c → y ∈ pending now c → dayOf x = dayOf y → x = y.
Proof.
  intros (i & -> & _)%pending_elem (j & -> & _)%pending_elem.
  rewrite !dayOf_mul. by intros ->.
Qed.

Lemma dayOf_pending_lt now c x y :
  x ∈ pending now c → y ∈ pending now c → x < y → dayOf x < dayOf y.
Proof.
  intros (i & -> & _)%pending_elem (j & -> & _)%pending_elem.
  rewrite !dayOf_mul. pose proof msPerDay_pos. nia.
Qed.

Lemma checkpoint_lookup b c :
  checkpoint b = Some c ↔ b !! lastSyncedBucketKey = Some (IsoDate c).
Proof.
  unfold checkpoint. destruct (b !! lastSyncedBucketKey) as [[]|]; cbn;
    split; intros; by simplify_eq.
Qed.

(** ** The properties of the synchronisation engine *)

(** C2.  For every date, [fetchMovies] maps what the request returns as
    follows: a 404 response gives the empty collection; any other response
    that is not [ok] gives [null] (unavailable); an [ok] response whose
    body does not parse as JSON gives the empty collection, neither an
    error nor unavailable. *)
Theorem fetchMovies_status_mapping fetch date b :
  let answers o :=
    fetchMovies fetch date b = (o, b, [EFetch date (getUrl date)]) in
  (∀ resp, fetch (getUrl date) = Some resp → status resp = 404 →
     answers (Ok (Some []))) ∧
  (∀ resp, fetch (getUrl date) = Some resp → ok resp = false →
     status resp ≠ 404 → answers (Ok None)) ∧
  (∀ resp, fetch (getUrl date) = Some resp → ok resp = true →
     body resp = None → answers (Ok (Some []))).
Proof.
  intros answers. unfold answers. rewrite fetchMovies_run, fetchDay_eq.
  split_and!.
  - intros resp -> H404. unfold ok. by rewrite H404.
  - intros resp -> Hok Hne. rewrite Hok. cbn. by rewrite (proj2 (Z.eqb_neq _ _)).
  - intros resp -> Hok Hbody. by rewrite Hok, Hbody.
Qed.

(** C7.  [appendUnique] leaves the array it is given as it was and returns
    a new one: a copy of [existing] when some record of [existing] has the
    [imdb_id] of [incoming] (the first seen wins), and otherwise [existing]
    with [incoming] appended at the end. *)
Theorem appendUnique_merge (h : gmap Arrays.ref (list Movie)) (r : Arrays.ref)
    (existing : list Movie) (incoming : Movie) :
  h !! r = Some existing →
  ∃ h' r', Arrays.appendUnique h r incoming = Some (h', r') ∧
    r' ≠ r ∧ (∀ r0 a, h !! r0 = Some a → h' !! r0 = Some a) ∧
    h' !! r' = Some (appendUnique existing incoming) ∧
    ((∃ m, m ∈ existing ∧ imdb_id m = imdb_id incoming) →
       appendUnique existing incoming = existing) ∧
    ((∀ m, m ∈ existing → imdb_id m ≠ imdb_id incoming) →
       appendUnique existing incoming = existing ++ [incoming]).
Proof.
  intros Hr. pose proof (is_fresh (dom h)) as Hfresh.
  assert (fresh (dom h) ≠ r) as Hne.
  { intros Heq. apply Hfresh. rewrite Heq. apply elem_of_dom. eauto. }
  exists (<[fresh (dom h) := appendUnique existing incoming]> h), (fresh (dom h)).
  split_and!.
  - unfold Arrays.appendUnique, Arrays.alloc, appendUnique. rewrite Hr. cbn.
    by destruct (find_imdb existing incoming).
  - done.
  - intros r0 a Hr0. rewrite lookup_insert_ne; [done|].
    intros Heq. apply Hfresh. rewrite Heq. apply elem_of_dom. eauto.
  - by rewrite lookup_insert_eq.
  - apply appendUnique_present.
  - apply appendUnique_absent.
Qed.

(** C8, amended.  Folding [appendUnique] over any sequence of incoming
    records, starting from a collection in which no two records share an
    [imdb_id] (the empty collection in particular), gives a collection in
    which no two records share an [imdb_id]. *)
Theorem dedup_invariant (existing incoming : list Movie) :
  NoDup (imdb_id <$> existing) →
  NoDup (imdb_id <$> fold_left appendUnique incoming existing) ∧
  NoDup (imdb_id <$> fold_left appendUnique incoming []).
Proof.
  intros Hnd. split; [by apply appendAll_NoDup|].
  apply appendAll_NoDup. constructor.
Qed.

Lemma pending_capped now c :
  7 < yesterday now - c →
  pending now c =
  [(c + 1) * msPerDay; (c + 2) * msPerDay; (c + 3) * msPerDay;
   (c + 4) * msPerDay; (c + 5) * msPerDay; (c + 6) * msPerDay;
   (c + 7) * msPerDay].
Proof.
  intros Hgap. unfold pending. rewrite Z.min_l by lia.
  do 7 (rewrite seqZ_cons by lia; cbn [Z.pred Z.add Z.pos_sub Pos.pred_double]).
  rewrite seqZ_nil by lia. rewrite !fmap_cons, fmap_nil.
  repeat (f_equal; try lia).
Qed.

Lemma filter_all {A} (P : A → Prop) `{!∀ x, Decision (P x)} (l : list A) :
  Forall P l → filter P l = l.
Proof.
  induction 1 as [|x l Hx _ IH]; [done|]. by rewrite filter_cons_True, IH.
Qed.

(** When every day of the list is processed the loop completes, and the
    checkpoint is the last day of the list. *)
Lemma syncLoop_all_processed fetch dates movies b :
  (∀ d, d ∈ dates → processed fetch d = true) →
  ∃ b' t, syncLoop fetch dates movies b = (Ok tt, b', t) ∧ fetched t = dates ∧
    b' !! lastSyncedBucketKey =
      match last dates with
      | Some d => Some (IsoDate (dayOf d))
      | None => b !! lastSyncedBucketKey
      end.
Proof.
  intros Hall. destruct (syncLoop fetch dates movies b) as [[r b'] t] eqn:Hloop.
  pose proof (syncLoop_fetched _ _ _ _ _ _ _ Hloop) as Hf.
  pose proof (syncLoop_checkpoint _ _ _ _ _ _ _ Hloop) as Hc.
  destruct r as [[]|e].
  - destruct Hf as [Hf _]. exists b', t. split_and!; [done..|].
    rewrite Hc, Hf. replace (filter _ dates) with dates; [done|].
    symmetry. apply filter_all. apply Forall_forall.
    intros d Hd. by rewrite (Hall d Hd).
  - destruct Hf as (pre & d & post & -> & _ & Hd & _).
    assert (processed fetch d = true) as Hp
      by (apply Hall, elem_of_app; right; left).
    unfold processed in Hp. by rewrite Hd in Hp.
Qed.

(** C4.  For a checkpoint [c] and a clock whose yesterday is more than 7
    days after [c], the pending window is exactly the 7 consecutive days
    [c+1 .. c+7] in ascending order, and a run whose initial reads succeed
    and in which every fetch of a pending day succeeds requests exactly these
    days and leaves the checkpoint at [c+7]. *)
Theorem window_bound fetch now b c movies b1 t1 :
  b !! lastSyncedBucketKey = Some (IsoDate c) →
  7 < yesterday now - c →
  getMovies b = (Ok movies, b1, t1) →
  (∀ k, 1 ≤ k ≤ 7 → processed fetch ((c + k) * msPerDay) = true) →
  let window :=
    [(c + 1) * msPerDay; (c + 2) * msPerDay; (c + 3) * msPerDay;
     (c + 4) * msPerDay; (c + 5) * msPerDay; (c + 6) * msPerDay;
     (c + 7) * msPerDay] in
  getNextSyncDates now b = (Ok window, b, [EGet lastSyncedBucketKey]) ∧
  ∃ b' t, syncMovies fetch now b = (Ok tt, b', t) ∧
    fetched t = window ∧ checkpoint b' = Some (c + 7).
Proof.
  intros Hc Hgap Hget Hall window.
  pose proof (pending_capped now c Hgap) as Hwin. fold window in Hwin.
  split.
  - rewrite (getNextSyncDates_run _ _ _ Hc), Hwin. case_decide; [lia|done].
  - rewrite (syncMovies_run _ _ _ _ Hc), Hget, Hwin.
    do 2 (case_decide; [lia|]).
    destruct (syncLoop_all_processed fetch window movies b1) as (b' & t & -> & Hf & Hb').
    { intros d Hd. unfold window in Hd.
      repeat (apply elem_of_cons in Hd as [->|Hd]; [apply Hall; lia|]).
      by apply elem_of_nil in Hd. }
    exists b', (EGet lastSyncedBucketKey :: t1 ++ t). split; [done|].
    apply getMovies_inv in Hget as (_ & Hf1 & _).
    split.
    + change (EGet lastSyncedBucketKey :: t1 ++ t)
        with ([EGet lastSyncedBucketKey] ++ t1 ++ t).
      by rewrite !fetched_app, Hf1, Hf.
    + apply checkpoint_lookup. rewrite Hb'. cbn. by rewrite dayOf_mul.
Qed.

(** C5, amended.  Whenever the pending window is empty (checkpoint equal
    to yesterday at day granularity), [syncMovies] terminates successfully,
    changes no persisted state and performs no I/O beyond the initial read
    of the checkpoint (the collection is not read); consequently, when a
    run leaves the checkpoint at yesterday, a run that follows on the same
    day changes no persisted state, whatever the remote then serves. *)
Theorem empty_window_noop fetch now b c :
  b !! lastSyncedBucketKey = Some (IsoDate c) →
  c = yesterday now →
  getNextSyncDates now b = (Ok [], b, [EGet lastSyncedBucketKey]) ∧
  syncMovies fetch now b = (Ok tt, b, [EGet lastSyncedBucketKey]) ∧
  ∀ fetch0 now0 b0 r0 t0,
    syncMovies fetch0 now0 b0 = (r0, b, t0) →
    (runs [(fetch0, now0); (fetch, now)] b0).1 = b.
Proof.
  intros Hc Hy. split_and!.
  - rewrite (getNextSyncDates_run _ _ _ Hc). case_decide; [lia|].
    by rewrite (proj2 (pending_nil now c ltac:(lia)) Hy).
  - rewrite (syncMovies_run _ _ _ _ Hc). by do 2 (case_decide; try lia).
  - intros fetch0 now0 b0 r0 t0 Hrun. cbn [runs]. rewrite Hrun.
    rewrite (syncMovies_run _ _ _ _ Hc). by do 2 (case_decide; try lia).
Qed.

(** C6.  For every persisted checkpoint strictly after yesterday (day
    granularity, relative to the clock reading), [syncMovies] raises before
    any fetch and any write; for a checkpoint equal to yesterday it does not
    raise and terminates with an empty window. *)
Theorem future_checkpoint_rejected fetch now b c :
  b !! lastSyncedBucketKey = Some (IsoDate c) →
  (yesterday now < c →
     syncMovies fetch now b =
       (Err InvalidLastSyncDate, b, [EGet lastSyncedBucketKey])) ∧
  (c = yesterday now →
     getNextSyncDates now b = (Ok [], b, [EGet lastSyncedBucketKey]) ∧
     syncMovies fetch now b = (Ok tt, b, [EGet lastSyncedBucketKey])).
Proof.
  intros Hc. split.
  - intros Hfut. rewrite (syncMovies_run _ _ _ _ Hc). by case_decide.
  - intros Hy. split.
    + rewrite (getNextSyncDates_run _ _ _ Hc). case_decide; [lia|].
      by rewrite (proj2 (pending_nil now c ltac:(lia)) Hy).
    + rewrite (syncMovies_run _ _ _ _ Hc). by do 2 (case_decide; try lia).
Qed.

(** C1, amended.  For every run of [syncMovies] in which the fetch of some
    pending day [d] returns a failure status other than 404, the run does
    not raise for that condition (it completes unless the fetch of another
    day rejects), the step of [d] writes nothing, and the checkpoint after
    the run is never [d]; it is strictly before [d] when no later day of
    the run is processed. *)
Theorem unavailable_day_not_committed fetch now b c r b' t d resp :
  b !! lastSyncedBucketKey = Some (IsoDate c) →
  syncMovies fetch now b = (r, b', t) →
  d ∈ fetched t →
  fetch (getUrl d) = Some resp → ok resp = false → status resp ≠ 404 →
  (r = Ok tt ∨
   ∃ d' e, d' ∈ fetched t ∧ d' ≠ d ∧ r = Err e ∧ fetchDay fetch d' = Err e) ∧
  (∀ rest movies b0,
     syncLoop fetch (d :: rest) movies b0 =
     let '(r0, b1, t1) := syncLoop fetch rest movies b0 in
     (r0, b1, EFetch d (getUrl d) :: t1)) ∧
  ∃ c', checkpoint b' = Some c' ∧ c ≤ c' ∧ c' ≠ dayOf d ∧
    ((∀ d', d' ∈ fetched t → d < d' → processed fetch d' = false) →
     c' < dayOf d).
Proof.
  intros Hc Hrun Hd Hf Hok Hst.
  pose proof (fetchDay_unavailable _ _ _ Hf Hok Hst) as Hday.
  destruct (syncMovies_inv _ _ _ _ _ _ _ Hc Hrun) as (Hpre & Hb' & Herr & _).
  pose proof (elem_of_prefix _ _ _ Hd Hpre) as Hdp.
  split_and!.
  - destruct r as [[]|e]; [by left|right].
    destruct (Herr e eq_refl) as (d' & Hlast & Hd'); [by intros Hnil; rewrite Hnil in Hd; apply elem_of_nil in Hd|].
    exists d', e. split_and!; [by apply last_Some_elem_of|congruence|done..].
  - intros rest movies b0. by rewrite syncLoop_cons, Hday.
  - destruct (last (filter _ (fetched t))) as [dl|] eqn:Hlast.
    + pose proof Hlast as Hdl.
      apply last_Some_elem_of, list_elem_of_filter in Hdl as [Hpdl Hdl].
      apply Is_true_true in Hpdl.
      pose proof (elem_of_prefix _ _ _ Hdl Hpre) as Hdlp.
      assert (dl ≠ d) as Hne.
      { intros ->. unfold processed in Hpdl. by rewrite Hday in Hpdl. }
      exists (dayOf dl). split_and!.
      * by apply checkpoint_lookup.
      * apply pending_elem in Hdlp as (j & -> & ? & _). rewrite dayOf_mul. lia.
      * intros Heq. apply Hne. by eapply dayOf_pending_inj.
      * intros Hlater. destruct (decide (d < dl)) as [Hlt|Hge].
        { rewrite (Hlater dl Hdl Hlt) in Hpdl. done. }
        eapply dayOf_pending_lt; [done..|lia].
    + exists c. apply pending_elem in Hdp as (j & -> & ? & _). rewrite dayOf_mul.
      split_and!; [by apply checkpoint_lookup|lia..].
Qed.

(** C9.  If within one run the fetch of day [d] returns a failure status
    other than 404 and a later day [d'] of the same run is processed, the
    run ends with the persisted checkpoint at the last processed day, which
    is after [d]; no run that follows ever requests day [d] again. *)
Theorem unavailable_day_skipped fetch now b c r b' t d resp d' :
  b !! lastSyncedBucketKey = Some (IsoDate c) →
  syncMovies fetch now b = (r, b', t) →
  d ∈ fetched t → d' ∈ fetched t → d < d' →
  fetch (getUrl d) = Some resp → ok resp = false → status resp ≠ 404 →
  processed fetch d' = true →
  ∃ dl, last (filter (λ x, processed fetch x) (fetched t)) = Some dl ∧
    checkpoint b' = Some (dayOf dl) ∧ d' ≤ dl ∧ dayOf d < dayOf dl ∧
    ∀ rs, d ∉ fetched (runs rs b').2.
Proof.
  intros Hc Hrun Hd Hd' Hlt Hf Hok Hst Hp'.
  destruct (syncMovies_inv _ _ _ _ _ _ _ Hc Hrun) as (Hpre & Hb' & _).
  assert (StronglySorted Z.lt (fetched t)) as Hsorted.
  { destruct Hpre as [k Hk]. pose proof (pending_sorted now c) as Hs.
    rewrite Hk in Hs. by apply StronglySorted_app_1_l in Hs. }
  destruct (last (filter _ (fetched t))) as [dl|] eqn:Hlast.
  2:{ apply last_None in Hlast. exfalso.
      eapply (filter_nil_not_elem_of _ _ d'); [exact Hlast| |exact Hd'].
      by apply Is_true_true. }
  assert (d' ≤ dl) as Hle.
  { eapply (last_filter_sorted (λ x, processed fetch x)); [done..| |done].
    by apply Is_true_true. }
  assert (dl ∈ pending now c) as Hdlp.
  { eapply elem_of_prefix; [|done].
    by apply last_Some_elem_of, list_elem_of_filter in Hlast as [_ ?]. }
  assert (dayOf d < dayOf dl) as Hday.
  { eapply dayOf_pending_lt; [by eapply elem_of_prefix|done|lia]. }
  exists dl. split_and!; [done|by apply checkpoint_lookup|done..|].
  intros rs Hin. eapply runs_after_checkpoint in Hin; [|done]. lia.
Qed.

(** Computing the window touches neither the collection nor the network;
    the only write it can make initialises the checkpoint. *)
Lemma getNextSyncDates_inv now b r b0 t0 :
  getNextSyncDates now b = (r, b0, t0) →
  b0 !! moviesBucketKey = b !! moviesBucketKey ∧
  ∀ k v, (k, v) ∈ writes t0 → k = lastSyncedBucketKey.
Proof.
  unfold getNextSyncDates, getLastSynced. rewrite !bind_run.
  unfold bucket_get.
  destruct (b !! lastSyncedBucketKey) as [o|].
  - destruct (z_iso_date_parse o) as [parsed|]; cbn.
    + rewrite bind_run. unfold lift.
      destruct (getSyncUntil now (parsed * msPerDay)); cbn; intros [= <- <- <-];
        (split; [done|by intros ?? ?%elem_of_nil]).
    + intros [= <- <- <-]. split; [done|by intros ?? ?%elem_of_nil].
  - rewrite !bind_run. unfold setLastSynced, bucket_put, lift. cbn.
    rewrite bind_run.
    match goal with |- context [getSyncUntil ?a ?x] =>
      destruct (getSyncUntil a x) end; cbn; intros [= <- <- <-];
      (split; [by rewrite lookup_insert_ne|
               by intros ?? [= -> _]%list_elem_of_singleton]).
Qed.

Lemma prefix_NoDup_fmap {A B} (f : A → B) (l1 l2 : list A) :
  l1 `prefix_of` l2 → NoDup (f <$> l2) → NoDup (f <$> l1).
Proof. intros [k ->]. rewrite fmap_app. by intros [? _]%NoDup_app. Qed.

(** C3, amended.  For every run in which the fetch of some pending day [d]
    returns a success status whose body parses as JSON but violates the
    [Movie] schema, and no earlier pending day rejects, [syncMovies] fails
    with the validation error and aborts the remainder of the run: no later
    day is requested and nothing is written for [d]; the persisted
    checkpoint and collection are those left by the days before [d], which
    are the values from before the run when none of those days is
    processed (in particular when [d] is the first pending day). *)
Theorem validation_failure_aborts fetch now b c movies pre d post resp data :
  b !! lastSyncedBucketKey = Some (IsoDate c) →
  collection b = Some movies →
  pending now c = pre ++ d :: post →
  (∀ x, x ∈ pre → ∃ o, fetchDay fetch x = Ok o) →
  fetch (getUrl d) = Some resp → ok resp = true → body resp = Some data →
  z_array_Movie_parse data = None →
  ∃ b1 t1, syncLoop fetch pre movies b = (Ok tt, b1, t1) ∧
    syncMovies fetch now b =
      (Err ZodError, b1,
       [EGet lastSyncedBucketKey; EGet moviesBucketKey] ++ t1 ++
       [EFetch d (getUrl d)]) ∧
    ((∀ x, x ∈ pre → processed fetch x = false) → b1 = b).
Proof.
  intros Hc Hcoll Hwin Hpre Hf Hok Hbody Hparse.
  assert (fetchDay fetch d = Err ZodError) as Hd
    by (by rewrite fetchDay_eq, Hf, Hok, Hbody, Hparse).
  assert (c < yesterday now) as Hlt.
  { assert (d ∈ pending now c) as Hin
      by (rewrite Hwin; apply elem_of_app; right; left).
    apply pending_elem in Hin as (j & _ & ? & _ & ?). lia. }
  destruct (syncLoop_abort fetch pre d post movies b ZodError Hpre Hd)
    as (b1 & t1 & Hloop & Hfull).
  exists b1, t1. split_and!; [done| |].
  - rewrite (syncMovies_run _ _ _ _ Hc), (getMovies_run _ _ Hcoll), Hwin, Hfull.
    by do 2 (case_decide; [lia|]).
  - intros Hnone. by eapply syncLoop_unprocessed.
Qed.

(** C10.  [getMovies] checks that each persisted record has the three
    string fields and nothing else: it returns a persisted collection as it
    is, two records with the same [imdb_id] included (such a bucket exists),
    and every collection a following [syncMovies] writes starts with the
    persisted records, so keeps their duplicates. *)
Theorem persisted_duplicates_kept fetch now b movies r b' t :
  collection b = Some movies →
  syncMovies fetch now b = (r, b', t) →
  getMovies b = (Ok movies, b, [EGet moviesBucketKey]) ∧
  (∀ v, (moviesBucketKey, v) ∈ writes t →
     ∃ l, v = JsonText (JSON_stringify l) ∧ movies `prefix_of` l ∧
       (¬ NoDup (imdb_id <$> movies) → ¬ NoDup (imdb_id <$> l))) ∧
  (∃ b0 m1 m2, imdb_id m1 = imdb_id m2 ∧
     b0 !! moviesBucketKey = Some (JsonText (JArr [Movie_json m1; Movie_json m2])) ∧
     getMovies b0 = (Ok [m1; m2], b0, [EGet moviesBucketKey])).
Proof.
  intros Hcoll Hrun. split_and!.
  - by apply getMovies_run.
  - intros v Hv.
    assert (∃ l, v = JsonText (JSON_stringify l) ∧ movies `prefix_of` l)
      as (l & -> & Hl).
    2:{ exists l. split_and!; [done..|]. intros Hdup Hnd. apply Hdup.
        by eapply prefix_NoDup_fmap. }
    unfold syncMovies in Hrun. rewrite bind_run in Hrun.
    destruct (getNextSyncDates now b) as [[[dates|e] b0] t0] eqn:Hnext;
      apply getNextSyncDates_inv in Hnext as [Hb0 Hw0].
    2:{ simplify_eq. by apply Hw0 in Hv. }
    assert (collection b0 = Some movies) as Hcoll0
      by (unfold collection in *; by rewrite Hb0).
    destruct (length dates =? 0)%nat.
    { cbn in Hrun. simplify_eq. rewrite app_nil_r in Hv. by apply Hw0 in Hv. }
    rewrite bind_run, (getMovies_run _ _ Hcoll0) in Hrun.
    destruct (syncLoop fetch dates movies b0) as [[r2 b2] t2] eqn:Hloop.
    simplify_eq. rewrite !writes_app in Hv.
    apply elem_of_app in Hv as [Hv|Hv]; [by apply Hw0 in Hv|].
    cbn in Hv.
    destruct (syncLoop_writes _ _ _ _ _ _ _ _ _ Hloop Hv) as [[? _]|[_ ?]]; done.
  - exists {[ moviesBucketKey :=
              JsonText (JArr [Movie_json (mkMovie "A" "tt1" "a");
                              Movie_json (mkMovie "B" "tt1" "b")]) ]},
      (mkMovie "A" "tt1" "a"), (mkMovie "B" "tt1" "b").
    split_and!; [done|by rewrite lookup_singleton_eq|].
    by apply getMovies_run.
Qed.

(** ** Counterexamples and instances *)

Lemma run_projections {A B C} (x : A * B * C) : x = (x.1.1, x.1.2, x.2).
Proof. by destruct x as [[??]?]. Defined.

(** C1 as stated fails: with checkpoint 2025-01-07, 2025-01-08 answering 500
    and 2025-01-09 serving a record, the run completes and the checkpoint
    is 2025-01-09, after the failed day. *)
Lemma unavailable_day_checkpoint_counterexample :
  ¬ (∀ r b' t d resp,
       syncMovies ex_fetch_500_then_ok ex_now (ex_bucket 20095 []) = (r, b', t) →
       d ∈ fetched t →
       ex_fetch_500_then_ok (getUrl d) = Some resp →
       ok resp = false → status resp ≠ 404 → r = Ok tt →
       ∃ c', checkpoint b' = Some c' ∧ c' < dayOf d).
Proof.
  intros H.
  destruct (H _ _ _ (20096 * msPerDay) (mkResponse 500 None)
              (run_projections _)) as (c' & Hc' & Hlt).
  - vm_compute. left.
  - reflexivity.
  - reflexivity.
  - discriminate.
  - reflexivity.
  - vm_compute in Hc'. injection Hc' as <-. vm_compute in Hlt. discriminate.
Qed.

Lemma unavailable_day_not_committed_witness :
  ∃ c', checkpoint ex_run_500_then_ok.1.2 = Some c' ∧ 20095 ≤ c' ∧
    c' ≠ dayOf (20096 * msPerDay) ∧
    ((∀ d', d' ∈ fetched ex_run_500_then_ok.2 → 20096 * msPerDay < d' →
        processed ex_fetch_500_then_ok d' = false) →
     c' < dayOf (20096 * msPerDay)).
Proof.
  refine (proj2 (proj2 (unavailable_day_not_committed
    ex_fetch_500_then_ok ex_now (ex_bucket 20095 []) 20095
    ex_run_500_then_ok.1.1 ex_run_500_then_ok.1.2 ex_run_500_then_ok.2
    (20096 * msPerDay) (mkResponse 500 None) _ _ _ _ _ _))).
  - reflexivity.
  - apply run_projections.
  - vm_compute. left.
  - reflexivity.
  - reflexivity.
  - discriminate.
Defined.

Lemma unavailable_day_skipped_witness :
  ∃ dl, last (filter (λ x, processed ex_fetch_500_then_ok x)
                (fetched ex_run_500_then_ok.2)) = Some dl ∧
    checkpoint ex_run_500_then_ok.1.2 = Some (dayOf dl) ∧
    20097 * msPerDay ≤ dl ∧ dayOf (20096 * msPerDay) < dayOf dl ∧
    ∀ rs, 20096 * msPerDay ∉ fetched (runs rs ex_run_500_then_ok.1.2).2.
Proof.
  refine (unavailable_day_skipped
    ex_fetch_500_then_ok ex_now (ex_bucket 20095 []) 20095
    ex_run_500_then_ok.1.1 ex_run_500_then_ok.1.2 ex_run_500_then_ok.2
    (20096 * msPerDay) (mkResponse 500 None) (20097 * msPerDay)
    _ _ _ _ _ _ _ _ _).
  - reflexivity.
  - apply run_projections.
  - vm_compute. left.
  - vm_compute. right. left.
  - reflexivity.
  - reflexivity.
  - reflexivity.
  - discriminate.
  - reflexivity.
Defined.

Lemma fetchMovies_status_mapping_witness :
  let day := 20096 * msPerDay in
  fetchMovies ex_fetch_404 day ∅ = (Ok (Some []), ∅, [EFetch day (getUrl day)]) ∧
  fetchMovies ex_fetch_500_then_ok day ∅ = (Ok None, ∅, [EFetch day (getUrl day)]) ∧
  fetchMovies ex_fetch_not_json day ∅ = (Ok (Some []), ∅, [EFetch day (getUrl day)]).
Proof.
  intros day. split; [|split].
  - apply (proj1 (fetchMovies_status_mapping ex_fetch_404 day ∅)
             (mkResponse 404 None)); reflexivity.
  - apply (proj1 (proj2 (fetchMovies_status_mapping ex_fetch_500_then_ok day ∅))
             (mkResponse 500 None)); [reflexivity|reflexivity|discriminate].
  - apply (proj2 (proj2 (fetchMovies_status_mapping ex_fetch_not_json day ∅))
             (mkResponse 200 None)); reflexivity.
Defined.

(** C3 as stated fails: with checkpoint 2025-01-07, 2025-01-08 serving a
    record and 2025-01-09 serving a body that violates the schema, the run
    fails after 2025-01-08 has been committed. *)
Lemma validation_failure_prerun_counterexample :
  ¬ (∀ r b' t d resp data,
       syncMovies ex_fetch_ok_then_bad ex_now (ex_bucket 20095 []) = (r, b', t) →
       d ∈ fetched t →
       ex_fetch_ok_then_bad (getUrl d) = Some resp →
       ok resp = true → body resp = Some data →
       z_array_Movie_parse data = None →
       r = Err ZodError ∧
       checkpoint b' = checkpoint (ex_bucket 20095 []) ∧
       collection b' = collection (ex_bucket 20095 [])).
Proof.
  intros H.
  destruct (H _ _ _ (20097 * msPerDay)
              (mkResponse 200 (Some (JArr [JObj [("bad"%string, JStr "data")]])))
              (JArr [JObj [("bad"%string, JStr "data")]])
              (run_projections _))
    as (_ & Hc & _).
  - vm_compute. right. left.
  - reflexivity.
  - reflexivity.
  - reflexivity.
  - reflexivity.
  - vm_compute in Hc. discriminate.
Qed.

Lemma validation_failure_aborts_witness :
  ∃ b1 t1,
    syncLoop ex_fetch_ok_then_bad [20096 * msPerDay] [] (ex_bucket 20095 []) =
      (Ok tt, b1, t1) ∧
    syncMovies ex_fetch_ok_then_bad ex_now (ex_bucket 20095 []) =
      (Err ZodError, b1,
       [EGet lastSyncedBucketKey; EGet moviesBucketKey] ++ t1 ++
       [EFetch (20097 * msPerDay) (getUrl (20097 * msPerDay))]) ∧
    ((∀ x, x ∈ [20096 * msPerDay] → processed ex_fetch_ok_then_bad x = false) →
     b1 = ex_bucket 20095 []).
Proof.
  refine (validation_failure_aborts ex_fetch_ok_then_bad ex_now
    (ex_bucket 20095 []) 20095 [] [20096 * msPerDay] (20097 * msPerDay) []
    (mkResponse 200 (Some (JArr [JObj [("bad"%string, JStr "data")]]))) _
    _ _ _ _ _ _ _ _).
  - reflexivity.
  - reflexivity.
  - reflexivity.
  - intros x Hx. apply list_elem_of_singleton in Hx. rewrite Hx.
    exists (Some [ex_movie "tt1"]). reflexivity.
  - reflexivity.
  - reflexivity.
  - reflexivity.
  - reflexivity.
Defined.

Lemma window_bound_witness :
  let window :=
    [(20080 + 1) * msPerDay; (20080 + 2) * msPerDay; (20080 + 3) * msPerDay;
     (20080 + 4) * msPerDay; (20080 + 5) * msPerDay; (20080 + 6) * msPerDay;
     (20080 + 7) * msPerDay] in
  getNextSyncDates ex_now (ex_bucket 20080 []) =
    (Ok window, ex_bucket 20080 [], [EGet lastSyncedBucketKey]) ∧
  ∃ b' t, syncMovies ex_fetch_empty ex_now (ex_bucket 20080 []) = (Ok tt, b', t) ∧
    fetched t = window ∧ checkpoint b' = Some (20080 + 7).
Proof.
  refine (window_bound ex_fetch_empty ex_now (ex_bucket 20080 []) 20080
            [] (ex_bucket 20080 []) [EGet moviesBucketKey] _ _ _ _).
  - reflexivity.
  - vm_compute. reflexivity.
  - reflexivity.
  - intros k Hk. reflexivity.
Defined.

(** C5 as stated fails twice over: a checkpoint on today's date is
    [≥ yesterday] yet the run raises; and after a run over a ten-day backlog
    on which the remote serves nothing, the run that follows at once still
    moves the checkpoint. *)
Lemma empty_window_counterexample :
  ¬ (ex_bucket 20098 [] !! lastSyncedBucketKey = Some (IsoDate 20098) →
     yesterday ex_now ≤ 20098 →
     ∃ t, syncMovies ex_fetch_404 ex_now (ex_bucket 20098 []) =
            (Ok tt, ex_bucket 20098 [], t)) ∧
  ¬ ((runs [(ex_fetch_404, ex_now); (ex_fetch_404, ex_now)] (ex_bucket 20087 [])).1 =
     (runs [(ex_fetch_404, ex_now)] (ex_bucket 20087 [])).1).
Proof.
  split.
  - intros H. destruct H as [t Ht]; [reflexivity|vm_compute; discriminate|].
    apply (f_equal (λ x, x.1.1)) in Ht. vm_compute in Ht. discriminate.
  - intros H. apply (f_equal checkpoint) in H. vm_compute in H. discriminate.
Qed.

Lemma empty_window_noop_witness :
  getNextSyncDates ex_now (ex_bucket 20097 []) =
    (Ok [], ex_bucket 20097 [], [EGet lastSyncedBucketKey]) ∧
  syncMovies ex_fetch_empty ex_now (ex_bucket 20097 []) =
    (Ok tt, ex_bucket 20097 [], [EGet lastSyncedBucketKey]) ∧
  ∀ fetch0 now0 b0 r0 t0,
    syncMovies fetch0 now0 b0 = (r0, ex_bucket 20097 [], t0) →
    (runs [(fetch0, now0); (ex_fetch_empty, ex_now)] b0).1 = ex_bucket 20097 [].
Proof.
  refine (empty_window_noop ex_fetch_empty ex_now (ex_bucket 20097 []) 20097 _ _).
  - reflexivity.
  - reflexivity.
Defined.

Lemma future_checkpoint_rejected_witness :
  syncMovies ex_fetch_empty ex_now (ex_bucket 20098 []) =
    (Err InvalidLastSyncDate, ex_bucket 20098 [], [EGet lastSyncedBucketKey]) ∧
  syncMovies ex_fetch_empty ex_now (ex_bucket 20097 []) =
    (Ok tt, ex_bucket 20097 [], [EGet lastSyncedBucketKey]).
Proof.
  split.
  - apply (proj1 (future_checkpoint_rejected ex_fetch_empty ex_now
                    (ex_bucket 20098 []) 20098 eq_refl)).
    vm_compute. reflexivity.
  - apply (proj2 (future_checkpoint_rejected ex_fetch_empty ex_now
                    (ex_bucket 20097 []) 20097 eq_refl)).
    reflexivity.
Defined.

Lemma appendUnique_merge_witness :
  ∃ h' r',
    Arrays.appendUnique {[ 1%positive := [ex_movie "tt1"] ]} 1%positive
      (mkMovie "Other" "tt1" "p") = Some (h', r') ∧
    r' ≠ 1%positive ∧
    (∀ r0 a, ({[ 1%positive := [ex_movie "tt1"] ]} : gmap Arrays.ref (list Movie)) !! r0 = Some a →
       h' !! r0 = Some a) ∧
    h' !! r' = Some (appendUnique [ex_movie "tt1"] (mkMovie "Other" "tt1" "p")) ∧
    ((∃ m, m ∈ [ex_movie "tt1"] ∧ imdb_id m = imdb_id (mkMovie "Other" "tt1" "p")) →
       appendUnique [ex_movie "tt1"] (mkMovie "Other" "tt1" "p") = [ex_movie "tt1"]) ∧
    ((∀ m, m ∈ [ex_movie "tt1"] → imdb_id m ≠ imdb_id (mkMovie "Other" "tt1" "p")) →
       appendUnique [ex_movie "tt1"] (mkMovie "Other" "tt1" "p") =
       [ex_movie "tt1"] ++ [mkMovie "Other" "tt1" "p"]).
Proof.
  refine (appendUnique_merge {[ 1%positive := [ex_movie "tt1"] ]} 1%positive
            [ex_movie "tt1"] (mkMovie "Other" "tt1" "p") _).
  reflexivity.
Defined.

(** C8 as stated fails: the fold keeps the duplicates of the collection it
    starts from. *)
Lemma dedup_from_any_collection_counterexample :
  ¬ NoDup (imdb_id <$> fold_left appendUnique [ex_movie "tt2"] ex_dup).
Proof.
  vm_compute. intros Hnd. apply NoDup_cons in Hnd as [Hnotin _].
  apply Hnotin. left.
Qed.

Lemma dedup_invariant_witness :
  NoDup (imdb_id <$> fold_left appendUnique ex_dup [ex_movie "tt2"]) ∧
  NoDup (imdb_id <$> fold_left appendUnique ex_dup []).
Proof.
  refine (dedup_invariant [ex_movie "tt2"] ex_dup _).
  vm_compute. apply NoDup_cons. split; [|apply NoDup_nil; exact I].
  intros Hin. apply elem_of_nil in Hin. exact Hin.
Defined.

Lemma persisted_duplicates_kept_witness :
  getMovies (ex_bucket 20095 ex_dup) =
    (Ok ex_dup, ex_bucket 20095 ex_dup, [EGet moviesBucketKey]) ∧
  (∀ v, (moviesBucketKey, v) ∈ writes ex_run_dup.2 →
     ∃ l, v = JsonText (JSON_stringify l) ∧ ex_dup `prefix_of` l ∧
       (¬ NoDup (imdb_id <$> ex_dup) → ¬ NoDup (imdb_id <$> l))) ∧
  (∃ b0 m1 m2, imdb_id m1 = imdb_id m2 ∧
     b0 !! moviesBucketKey = Some (JsonText (JArr [Movie_json m1; Movie_json m2])) ∧
     getMovies b0 = (Ok [m1; m2], b0, [EGet moviesBucketKey])).
Proof.
  refine (persisted_duplicates_kept ex_fetch_tt2 ex_now
            (ex_bucket 20095 ex_dup) ex_dup
            ex_run_dup.1.1 ex_run_dup.1.2 ex_run_dup.2 _ _).
  - reflexivity.
  - apply run_projections.
Defined.

(** ** Further properties: the stores *)

(** X1.  When [movies.json] is absent, [getMovies] returns the empty
    collection and persists it; a second read returns the empty collection
    again and writes nothing. *)
Theorem getMovies_initialises (b : gmap string blob) :
  b !! moviesBucketKey = None →
  ∃ b1, getMovies b =
          (Ok [], b1, [EGet moviesBucketKey;
                       EPut moviesBucketKey (JsonText (JArr []))]) ∧
    b1 = <[moviesBucketKey := JsonText (JArr [])]> b ∧
    getMovies b1 = (Ok [], b1, [EGet moviesBucketKey]).
Proof.
  intros Hb. eexists. split_and!; [|done|].
  - unfold getMovies. rewrite bind_run. unfold bucket_get. by rewrite Hb.
  - apply getMovies_run. unfold collection. by rewrite lookup_insert_eq.
Qed.

(** X2.  For a persisted [movies.json], [getMovies] returns the records,
    with the keys the schema does not list removed, when the text is a JSON
    array whose every element has the three string fields; it rejects with
    the validation error as soon as one element does not, or when the JSON
    value is not an array, and with the syntax error of [object.json()] when
    the text is not JSON.  Whenever it rejects the bucket is left as it is
    and nothing is written. *)
Theorem getMovies_schema (b : gmap string blob) (o : blob) :
  b !! moviesBucketKey = Some o →
  (∀ items movies, o = JsonText (JArr items) →
     Forall2 (λ j m, Movie_parse j = Some m) items movies →
     getMovies b = (Ok movies, b, [EGet moviesBucketKey])) ∧
  (∀ items j, o = JsonText (JArr items) → j ∈ items → Movie_parse j = None →
     getMovies b = (Err ZodError, b, [EGet moviesBucketKey])) ∧
  (∀ data, o = JsonText data → (∀ items, data ≠ JArr items) →
     getMovies b = (Err ZodError, b, [EGet moviesBucketKey])) ∧
  (object_json o = None →
     getMovies b = (Err SyntaxError, b, [EGet moviesBucketKey])).
Proof.
  intros Hb. unfold getMovies. rewrite bind_run. unfold bucket_get.
  rewrite Hb. split_and!.
  - intros items movies -> Hall%mapM_Some_2. cbn. by rewrite Hall.
  - intros items j -> Hj Hnone.
    assert (mapM Movie_parse items = None) as Hm.
    { apply mapM_None_2, Exists_exists. eauto. }
    cbn. by rewrite Hm.
  - intros data -> Hna. destruct data; try done. by destruct (Hna items).
  - by intros ->.
Qed.

(** X3.  What [setMovies] writes, [getMovies] reads back unchanged, whatever
    the records (repeated identifiers included) and the bucket before. *)
Theorem setMovies_getMovies (movies : list Movie) (b : gmap string blob) :
  ∃ b1, setMovies movies b = (Ok tt, b1, [EPut moviesBucketKey (JsonText (JSON_stringify movies))]) ∧
    getMovies b1 = (Ok movies, b1, [EGet moviesBucketKey]) ∧
    ∀ k, k ≠ moviesBucketKey → b1 !! k = b !! k.
Proof.
  eexists. split_and!; [done| |].
  - apply getMovies_run. unfold collection.
    by rewrite lookup_insert_eq, z_array_Movie_parse_stringify.
  - intros k Hk. by rewrite lookup_insert_ne.
Qed.

(** X4.  When [last_synced.txt] is absent, [getLastSynced] returns the
    midnight of 1 December 2019 (the day before the earliest snapshot) and
    persists that day; a second read returns the same date and writes
    nothing. *)
Theorem getLastSynced_initialises (b : gmap string blob) :
  b !! lastSyncedBucketKey = None →
  ∃ b1, getLastSynced b =
          (Ok (18231 * msPerDay), b1,
           [EGet lastSyncedBucketKey; EPut lastSyncedBucketKey (IsoDate 18231)]) ∧
    civil 18231 = (2019, 12, 1) ∧
    b1 = <[lastSyncedBucketKey := IsoDate 18231]> b ∧
    getLastSynced b1 = (Ok (18231 * msPerDay), b1, [EGet lastSyncedBucketKey]).
Proof.
  intros Hb. eexists. split_and!; [|done|done|].
  - unfold getLastSynced. rewrite bind_run. unfold bucket_get. by rewrite Hb.
  - apply getLastSynced_run. by rewrite lookup_insert_eq.
Qed.


(** X6.  A persisted [last_synced.txt] that is not an ISO date makes
    [syncMovies] reject with the validation error after that one read: no
    request is sent and nothing is written. *)
Theorem syncMovies_corrupt_checkpoint fetch now (b : gmap string blob) (o : blob) :
  b !! lastSyncedBucketKey = Some o → z_iso_date_parse o = None →
  syncMovies fetch now b = (Err ZodError, b, [EGet lastSyncedBucketKey]).
Proof.
  intros Hb Ho. unfold syncMovies, getNextSyncDates, getLastSynced.
  rewrite !bind_run. unfold bucket_get. by rewrite Hb, Ho.
Qed.

(** X7.  A run on a bucket without [last_synced.txt] is the run from the
    checkpoint 1 December 2019, preceded by the write that initialises the
    checkpoint: same result, same final bucket, same I/O after the
    initialisation. *)
Theorem syncMovies_first_run fetch now (b : gmap string blob) :
  b !! lastSyncedBucketKey = None →
  syncMovies fetch now b =
  let '(r, b', t) :=
    syncMovies fetch now (<[lastSyncedBucketKey := IsoDate 18231]> b) in
  (r, b', [EGet lastSyncedBucketKey; EPut lastSyncedBucketKey (IsoDate 18231)]
          ++ tail t).
Proof.
  intros Hb.
  assert (getLastSynced b =
    (Ok (18231 * msPerDay), <[lastSyncedBucketKey := IsoDate 18231]> b,
     [EGet lastSyncedBucketKey; EPut lastSyncedBucketKey (IsoDate 18231)])) as Hinit.
  { unfold getLastSynced. rewrite bind_run. unfold bucket_get. by rewrite Hb. }
  assert (getLastSynced (<[lastSyncedBucketKey := IsoDate 18231]> b) =
    (Ok (18231 * msPerDay), <[lastSyncedBucketKey := IsoDate 18231]> b,
     [EGet lastSyncedBucketKey])) as Hagain.
  { apply getLastSynced_run. by rewrite lookup_insert_eq. }
  unfold syncMovies, getNextSyncDates.
  rewrite !(bind_run (getLastSynced ≫= _)), !(bind_run getLastSynced).
  rewrite Hinit, Hagain.
  match goal with |- context [(lift ?x ≫= ?f) ?b0] =>
    destruct ((lift x ≫= f) b0) as [[[dates|e] b2] t2] end; [|done].
  match goal with |- context [(if ?c then ?x else ?y) b2] =>
    by destruct ((if c then x else y) b2) as [[??]?] end.
Qed.

(** ** Further properties: dates and the window *)

Lemma getDateRange_loop_closed fuel date until :
  getDateRange_loop fuel date until =
  (λ k, addDays date k) <$>
    seqZ 0 (Z.min (Z.of_nat fuel) ((until - date) / msPerDay + 1)).
Proof.
  revert date. induction fuel as [|fuel IH]; intros date.
  - by rewrite seqZ_nil; [|lia].
  - cbn [getDateRange_loop]. pose proof msPerDay_pos as HD.
    destruct (date <=? until) eqn:E.
    + apply Z.leb_le in E.
      assert (0 ≤ (until - date) / msPerDay) by (apply Z.div_pos; lia).
      assert ((until - addDays date 1) / msPerDay + 1 = (until - date) / msPerDay) as Hstep.
      { unfold addDays.
        replace (until - (date + 1 * msPerDay)) with (until - date + (-1) * msPerDay) by lia.
        rewrite Z.div_add; [lia|done]. }
      rewrite IH, Hstep.
      rewrite (seqZ_cons 0 (Z.min (Z.of_nat (S fuel)) ((until - date) / msPerDay + 1)));
        [|lia].
      rewrite fmap_cons. f_equal.
      { unfold addDays. lia. }
      replace (Z.succ 0) with (1 + 0) by done.
      rewrite <- fmap_add_seqZ, <- list_fmap_compose.
      replace (Z.pred (Z.min (Z.of_nat (S fuel)) ((until - date) / msPerDay + 1)))
        with (Z.min (Z.of_nat fuel) ((until - date) / msPerDay)) by lia.
      apply list_fmap_ext. intros _ k _. unfold addDays. cbn. lia.
    + apply Z.leb_gt in E. rewrite seqZ_nil; [done|].
      assert ((until - date) / msPerDay < 0); [|lia].
      apply Z.div_lt_upper_bound; lia.
Qed.

(** X8.  [getDateRange from until] is the list [from], [from] + 1 day,
    [from] + 2 days, ... of all such dates that are not after [until], in
    ascending order; it is empty exactly when [until] is before [from]. *)
Theorem getDateRange_spec (from until : Z) :
  getDateRange from until =
    (λ k, addDays from k) <$> seqZ 0 ((until - from) / msPerDay + 1) ∧
  (∀ x, x ∈ getDateRange from until ↔
        ∃ k, 0 ≤ k ∧ x = addDays from k ∧ x ≤ until) ∧
  StronglySorted Z.lt (getDateRange from until) ∧
  (getDateRange from until = [] ↔ until < from).
Proof.
  pose proof msPerDay_pos as HD.
  assert (getDateRange from until =
    (λ k, addDays from k) <$> seqZ 0 ((until - from) / msPerDay + 1)) as Heq.
  { unfold getDateRange. rewrite getDateRange_loop_closed.
    destruct (decide (0 ≤ (until - from) / msPerDay + 1)).
    - by rewrite Z2Nat.id, Z.min_id.
    - by rewrite !seqZ_nil; [|lia..]. }
  assert (∀ k, k < (until - from) / msPerDay + 1 ↔ addDays from k ≤ until) as Hk.
  { intros k. unfold addDays.
    pose proof (mul_le_dayOf k (until - from)) as Hm. unfold dayOf in Hm. lia. }
  split_and!; [done| | |].
  - intros x. rewrite Heq, list_elem_of_fmap. setoid_rewrite elem_of_seqZ.
    split.
    + intros (k & -> & Hr). exists k. split_and!; [lia|done|apply Hk; lia].
    + intros (k & ? & -> & Hle). exists k. split; [done|].
      apply Hk in Hle. lia.
  - rewrite Heq. eapply StronglySorted_fmap; [|apply seqZ_sorted].
    intros x y Hxy. unfold addDays. cbn. nia.
  - rewrite Heq. split.
    + intros Hnil%fmap_nil_inv.
      destruct (decide (until < from)) as [|Hge]; [done|].
      assert (0 < (until - from) / msPerDay + 1) by (apply (Hk 0); unfold addDays; lia).
      rewrite seqZ_cons in Hnil; [done|lia].
    + intros Hlt. rewrite seqZ_nil; [done|].
      assert (¬ 0 < (until - from) / msPerDay + 1); [|lia].
      intros H0. apply (Hk 0) in H0. unfold addDays in H0. lia.
Qed.

(** X9.  From a persisted checkpoint [c] that is not after yesterday,
    [getNextSyncDates] returns, after the one read of the checkpoint, the
    midnights of the days [c+1 .. min (c+7) yesterday] in ascending order:
    at most 7 dates, none when [c] is yesterday. *)
Theorem getNextSyncDates_window now (b : gmap string blob) (c : Z) :
  b !! lastSyncedBucketKey = Some (IsoDate c) →
  c ≤ yesterday now →
  ∃ dates, getNextSyncDates now b = (Ok dates, b, [EGet lastSyncedBucketKey]) ∧
    (∀ x, x ∈ dates ↔
          ∃ j, x = j * msPerDay ∧ c < j ∧ j ≤ c + 7 ∧ j ≤ yesterday now) ∧
    length dates = Z.to_nat (Z.min 7 (yesterday now - c)) ∧
    (length dates ≤ 7)%nat ∧
    StronglySorted Z.lt dates ∧
    (dates = [] ↔ c = yesterday now).
Proof.
  intros Hc Hle. exists (pending now c).
  rewrite (getNextSyncDates_run _ _ _ Hc). case_decide; [lia|].
  assert (length (pending now c) = Z.to_nat (Z.min 7 (yesterday now - c))) as Hlen.
  { unfold pending. by rewrite length_fmap, length_seqZ. }
  split_and!; [done| |done| | |].
  - apply pending_elem.
  - rewrite Hlen. lia.
  - apply pending_sorted.
  - by apply pending_nil.
Qed.

(** ** Further properties: a run *)

Lemma runs_checkpoint_monotone rs (b : gmap string blob) (c : Z) :
  b !! lastSyncedBucketKey = Some (IsoDate c) →
  ∃ c', (runs rs b).1 !! lastSyncedBucketKey = Some (IsoDate c') ∧ c ≤ c'.
Proof.
  revert b c. induction rs as [|[fetch now] rs IH]; intros b c Hc.
  { exists c. by split. }
  cbn [runs]. destruct (syncMovies fetch now b) as [[r b1] t1] eqn:Hrun.
  destruct (syncMovies_monotone _ _ _ _ _ _ _ Hc Hrun) as [(c1 & Hc1 & Hle) _].
  destruct (IH b1 c1 Hc1) as (c' & Hc' & Hle').
  destruct (runs rs b1) as [b2 t2]. exists c'. split; [done|lia].
Qed.

(** X10.  A run from a persisted checkpoint [c] never moves the checkpoint
    back, moves it forward by at most 7 days and never past yesterday; it
    sends at most 7 requests, each for the midnight of a day after [c] and
    not after yesterday, and none twice.  Over any succession of runs the
    checkpoint never decreases. *)
Theorem syncMovies_bounds fetch now (b : gmap string blob) c r b' t :
  b !! lastSyncedBucketKey = Some (IsoDate c) →
  syncMovies fetch now b = (r, b', t) →
  (∃ c', checkpoint b' = Some c' ∧ c ≤ c' ∧ c' ≤ c + 7 ∧
         (c ≤ yesterday now → c' ≤ yesterday now)) ∧
  (length (fetched t) ≤ 7)%nat ∧ NoDup (fetched t) ∧
  (∀ x, x ∈ fetched t →
        c < dayOf x ∧ dayOf x ≤ yesterday now ∧ x = dayOf x * msPerDay) ∧
  (∀ rs, ∃ c'', checkpoint (runs rs b).1 = Some c'' ∧ c ≤ c'').
Proof.
  intros Hc Hrun.
  destruct (syncMovies_inv _ _ _ _ _ _ _ Hc Hrun) as (Hpre & Hb' & _).
  assert (∀ x, x ∈ fetched t →
    c < dayOf x ∧ dayOf x ≤ c + 7 ∧ dayOf x ≤ yesterday now ∧
    x = dayOf x * msPerDay) as Hfetched.
  { intros x Hx. eapply elem_of_prefix in Hx; [|done].
    apply pending_elem in Hx as (j & -> & ? & ? & ?). by rewrite dayOf_mul. }
  split_and!.
  - destruct (last (filter _ (fetched t))) as [d|] eqn:Hlast.
    + apply last_Some_elem_of, list_elem_of_filter in Hlast as [_ Hd].
      destruct (Hfetched d Hd) as (? & ? & ? & _).
      exists (dayOf d). split_and!; [by apply checkpoint_lookup|lia..].
    + exists c. split_and!; [by apply checkpoint_lookup|lia..].
  - apply prefix_length in Hpre. unfold pending in Hpre.
    rewrite length_fmap, length_seqZ in Hpre. lia.
  - destruct Hpre as [k Hk].
    assert (NoDup (pending now c)) as Hnd.
    { unfold pending. apply NoDup_fmap_2; [|apply NoDup_seqZ].
      intros x y Hxy. pose proof msPerDay_pos. nia. }
    rewrite Hk in Hnd. by apply NoDup_app in Hnd as [? _].
  - intros x Hx. destruct (Hfetched x Hx) as (? & _ & ? & ?). done.
  - intros rs. destruct (runs_checkpoint_monotone rs b c Hc) as (c' & Hc' & ?).
    exists c'. split; [by apply checkpoint_lookup|done].
Qed.

Lemma served_cons fetch d ds :
  served fetch (d :: ds) =
  match fetchDay fetch d with Ok (Some newMovies) => newMovies | _ => [] end
  ++ served fetch ds.
Proof. done. Qed.

Lemma appendAll_app movies l1 l2 :
  appendAll movies (l1 ++ l2) = appendAll (appendAll movies l1) l2.
Proof. apply fold_left_app. Qed.

Lemma appendAll_unchanged movies newMovies :
  (length movies <? length (appendAll movies newMovies))%nat = false →
  appendAll movies newMovies = movies.
Proof.
  intros Hlen%Nat.ltb_ge. symmetry.
  by apply prefix_length_eq; [apply appendAll_prefix|].
Qed.

Lemma commit_collection d movies newMovies (b : gmap string blob) :
  collection b = Some movies →
  collection (commit d movies newMovies b) = Some (appendAll movies newMovies).
Proof.
  intros Hcoll. unfold collection, commit.
  rewrite lookup_insert_ne by done.
  destruct (length movies <? length (appendAll movies newMovies))%nat eqn:E.
  - by rewrite lookup_insert_eq, z_array_Movie_parse_stringify.
  - rewrite (appendAll_unchanged _ _ E). exact Hcoll.
Qed.

(** The persisted collection follows the loop's [movies] variable. *)
Lemma syncLoop_collection fetch dates movies (b : gmap string blob) r b' t :
  collection b = Some movies →
  syncLoop fetch dates movies b = (r, b', t) →
  collection b' = Some (appendAll movies (served fetch (fetched t))).
Proof.
  revert movies b r b' t.
  induction dates as [|d dates IH]; intros movies b r b' t Hcoll H.
  { rewrite syncLoop_nil in H. by simplify_eq. }
  loop_step H d.
  - rewrite fetched_cons_fetch, fetched_app, fetched_commit_events. cbn [app].
    rewrite served_cons, Hday, appendAll_app.
    eapply IH; [|done]. by apply commit_collection.
  - rewrite fetched_cons_fetch, served_cons, Hday. cbn [app]. by eapply IH.
  - rewrite fetched_cons_fetch, served_cons, Hday. done.
Qed.

Lemma writes_cons_fetch d url t : writes (EFetch d url :: t) = writes t.
Proof. done. Qed.

(** Every collection the loop writes is longer than the one it started
    from and is an initial segment of the one it ends with. *)
Lemma syncLoop_writes_strict fetch dates movies (b : gmap string blob) r b' t v :
  syncLoop fetch dates movies b = (r, b', t) →
  (moviesBucketKey, v) ∈ writes t →
  ∃ l, v = JsonText (JSON_stringify l) ∧ movies `prefix_of` l ∧
    (length movies < length l)%nat ∧
    l `prefix_of` appendAll movies (served fetch (fetched t)).
Proof.
  revert movies b r b' t.
  induction dates as [|d dates IH]; intros movies b r b' t H Hin.
  { rewrite syncLoop_nil in H. simplify_eq. by apply elem_of_nil in Hin. }
  loop_step H d.
  - rewrite fetched_cons_fetch, fetched_app, fetched_commit_events. cbn [app].
    rewrite served_cons, Hday, appendAll_app.
    rewrite writes_cons_fetch, writes_app in Hin.
    apply elem_of_app in Hin as [Hin|Hin].
    + unfold commit_events in Hin. rewrite writes_app in Hin.
      apply elem_of_app in Hin as [Hin|Hin].
      * destruct (length movies <? length (appendAll movies newMovies))%nat eqn:E;
          [|by apply elem_of_nil in Hin].
        apply list_elem_of_singleton in Hin as [= ->].
        eexists. split_and!; [done|apply appendAll_prefix|by apply Nat.ltb_lt|].
        apply appendAll_prefix.
      * by apply list_elem_of_singleton in Hin as [= ?].
    + destruct (IH _ _ _ _ _ Hrest Hin) as (l & -> & Hpre & Hlen & Hfin).
      exists l. split_and!; [done| | |done].
      * etrans; [apply appendAll_prefix|done].
      * pose proof (appendAll_length movies newMovies). lia.
  - rewrite fetched_cons_fetch, served_cons, Hday. cbn [app].
    rewrite writes_cons_fetch in Hin. by eapply IH.
  - by apply elem_of_nil in Hin.
Qed.

Lemma appendAll_known movies newMovies :
  (∀ m, m ∈ newMovies → ∃ m0, m0 ∈ movies ∧ imdb_id m0 = imdb_id m) →
  appendAll movies newMovies = movies.
Proof.
  unfold appendAll. induction newMovies as [|m ms IH]; intros Hall; [done|].
  cbn [fold_left]. rewrite appendUnique_present.
  - apply IH. intros m' Hm'. apply Hall. by right.
  - apply Hall. by left.
Qed.

Lemma getNextSyncDates_no_fetch now (b : gmap string blob) r b0 t0 :
  getNextSyncDates now b = (r, b0, t0) → fetched t0 = [].
Proof.
  unfold getNextSyncDates, getLastSynced. rewrite !bind_run.
  unfold bucket_get.
  destruct (b !! lastSyncedBucketKey) as [o|].
  - destruct (z_iso_date_parse o) as [parsed|]; cbn.
    + rewrite bind_run. unfold lift.
      destruct (getSyncUntil now (parsed * msPerDay)); cbn; by intros [= <- <- <-].
    + by intros [= <- <- <-].
  - rewrite !bind_run. unfold setLastSynced, bucket_put, lift. cbn.
    rewrite bind_run.
    match goal with |- context [getSyncUntil ?a ?x] =>
      destruct (getSyncUntil a x) end; cbn; by intros [= <- <- <-].
Qed.

(** The persisted collection after a run. *)
Lemma syncMovies_collection fetch now (b : gmap string blob) movies r b' t :
  collection b = Some movies →
  syncMovies fetch now b = (r, b', t) →
  collection b' = Some (appendAll movies (served fetch (fetched t))).
Proof.
  intros Hcoll Hrun.
  unfold syncMovies in Hrun. rewrite bind_run in Hrun.
  destruct (getNextSyncDates now b) as [[rd b0] t0] eqn:Hnext.
  pose proof (getNextSyncDates_no_fetch _ _ _ _ _ Hnext) as Hf0.
  apply getNextSyncDates_inv in Hnext as [Hb0 _].
  assert (collection b0 = Some movies) as Hcoll0
    by (unfold collection in *; by rewrite Hb0).
  destruct rd as [dates|e]; [|simplify_eq; by rewrite Hf0].
  destruct (length dates =? 0)%nat.
  { cbn in Hrun. simplify_eq. by rewrite app_nil_r, Hf0. }
  rewrite bind_run, (getMovies_run _ _ Hcoll0) in Hrun.
  destruct (syncLoop fetch dates movies b0) as [[r2 b2] t2] eqn:Hloop.
  simplify_eq. rewrite !fetched_app, Hf0. cbn [app fetched omap list_omap].
  by eapply syncLoop_collection.
Qed.

(** X11.  After a run, completed or aborted, the persisted collection is the
    collection persisted before the run merged, record by record and in
    order, with the records served on the days of the run that were
    processed: what is in the bucket is always what the loop holds, and a
    run never invalidates or shortens a valid persisted collection. *)
Theorem syncMovies_persists_merge fetch now (b : gmap string blob) movies r b' t :
  collection b = Some movies →
  syncMovies fetch now b = (r, b', t) →
  collection b' = Some (fold_left appendUnique (served fetch (fetched t)) movies) ∧
  movies `prefix_of` fold_left appendUnique (served fetch (fetched t)) movies.
Proof.
  intros Hcoll Hrun. split; [|apply appendAll_prefix].
  by eapply syncMovies_collection.
Qed.

(** X12.  [movies.json] is written only when the collection has grown: every
    collection a run writes is strictly longer than the one persisted
    before the run and is an initial segment of the one persisted after
    it; when every record served during the run has an [imdb_id] that is
    already persisted, the run does not write [movies.json] at all. *)
Theorem collection_written_on_growth fetch now (b : gmap string blob) c movies r b' t :
  b !! lastSyncedBucketKey = Some (IsoDate c) →
  collection b = Some movies →
  syncMovies fetch now b = (r, b', t) →
  (∀ v, (moviesBucketKey, v) ∈ writes t →
     ∃ l final, v = JsonText (JSON_stringify l) ∧
       (length movies < length l)%nat ∧ movies `prefix_of` l ∧
       collection b' = Some final ∧ l `prefix_of` final) ∧
  ((∀ m, m ∈ served fetch (fetched t) →
         ∃ m0, m0 ∈ movies ∧ imdb_id m0 = imdb_id m) →
   (∀ v, (moviesBucketKey, v) ∉ writes t) ∧ collection b' = Some movies).
Proof.
  intros Hc Hcoll Hrun.
  assert (∀ v, (moviesBucketKey, v) ∈ writes t →
     ∃ l, v = JsonText (JSON_stringify l) ∧ movies `prefix_of` l ∧
       (length movies < length l)%nat ∧
       l `prefix_of` appendAll movies (served fetch (fetched t))) as Hw.
  { intros v Hv. rewrite (syncMovies_run _ _ _ _ Hc) in Hrun.
    case_decide; [simplify_eq; by apply elem_of_nil in Hv|].
    case_decide; [simplify_eq; by apply elem_of_nil in Hv|].
    rewrite (getMovies_run _ _ Hcoll) in Hrun.
    destruct (syncLoop fetch (pending now c) movies b) as [[r2 b2] t2] eqn:Hloop.
    simplify_eq. cbn in Hv |- *. by eapply syncLoop_writes_strict. }
  pose proof (syncMovies_collection _ _ _ _ _ _ _ Hcoll Hrun) as Hfinal.
  split.
  - intros v Hv. destruct (Hw v Hv) as (l & -> & Hpre & Hlen & Hfin).
    by exists l, (appendAll movies (served fetch (fetched t))).
  - intros Hknown. apply appendAll_known in Hknown.
    unfold appendAll in *. rewrite Hknown in Hfinal. split; [|done].
    intros v Hv. destruct (Hw v Hv) as (l & _ & _ & Hlen & Hfin).
    rewrite Hknown in Hfin. apply prefix_length in Hfin. lia.
Qed.

(** X13.  When the request of some pending day [d] rejects (transport
    failure or timeout) and no earlier pending day rejects, [syncMovies]
    rejects with that error: no later day is requested, nothing is written
    for [d], and the bucket is as the days before [d] left it, with a
    checkpoint before [d]. *)
Theorem transport_failure_aborts fetch now (b : gmap string blob) c movies pre d post :
  b !! lastSyncedBucketKey = Some (IsoDate c) →
  collection b = Some movies →
  pending now c = pre ++ d :: post →
  (∀ x, x ∈ pre → ∃ o, fetchDay fetch x = Ok o) →
  fetch (getUrl d) = None →
  ∃ b1 t1, syncLoop fetch pre movies b = (Ok tt, b1, t1) ∧
    syncMovies fetch now b =
      (Err FetchError, b1,
       [EGet lastSyncedBucketKey; EGet moviesBucketKey] ++ t1 ++
       [EFetch d (getUrl d)]) ∧
    fetched t1 = pre ∧
    ∃ c1, checkpoint b1 = Some c1 ∧ c ≤ c1 ∧ c1 < dayOf d.
Proof.
  intros Hc Hcoll Hwin Hpre Hf.
  assert (fetchDay fetch d = Err FetchError) as Hd
    by (by rewrite fetchDay_eq, Hf).
  assert (d ∈ pending now c) as Hdp
    by (rewrite Hwin; apply elem_of_app; right; left).
  assert (c < yesterday now) as Hlt.
  { apply pending_elem in Hdp as (j & _ & ? & _ & ?). lia. }
  destruct (syncLoop_abort fetch pre d post movies b FetchError Hpre Hd)
    as (b1 & t1 & Hloop & Hfull).
  pose proof (syncLoop_fetched _ _ _ _ _ _ _ Hloop) as [Hfetched _].
  pose proof (syncLoop_checkpoint _ _ _ _ _ _ _ Hloop) as Hcp.
  exists b1, t1. split_and!; [done| |done|].
  - rewrite (syncMovies_run _ _ _ _ Hc), (getMovies_run _ _ Hcoll), Hwin, Hfull.
    by do 2 (case_decide; [lia|]).
  - rewrite Hfetched, Hc in Hcp.
    destruct (last (filter _ pre)) as [dl|] eqn:Hlast.
    + apply last_Some_elem_of, list_elem_of_filter in Hlast as [_ Hdl].
      assert (dl ∈ pending now c) as Hdlp
        by (rewrite Hwin; apply elem_of_app; by left).
      assert (dl < d) as Hbefore.
      { pose proof (pending_sorted now c) as Hs. rewrite Hwin in Hs.
        eapply (StronglySorted_app_1_elem_of _ _ _ _ _ Hs Hdl). by left. }
      exists (dayOf dl). split_and!.
      * by apply checkpoint_lookup.
      * apply pending_elem in Hdlp as (j & -> & ? & _). rewrite dayOf_mul. lia.
      * by eapply dayOf_pending_lt.
    + exists c. split_and!; [by apply checkpoint_lookup|lia|].
      apply pending_elem in Hdp as (j & -> & ? & _). by rewrite dayOf_mul.
Qed.

(** ** Further properties: the merge *)

Lemma find_imdb_app l1 l2 probe :
  find_imdb (l1 ++ l2) probe =
  match find_imdb l1 probe with
  | Some m => Some m
  | None => find_imdb l2 probe
  end.
Proof.
  unfold find_imdb. induction l1 as [|x l1 IH]; [done|].
  cbn. by destruct (String.eqb (imdb_id x) (imdb_id probe)).
Qed.

Lemma appendUnique_find movies newMovie probe :
  find_imdb (appendUnique movies newMovie) probe =
  find_imdb (movies ++ [newMovie]) probe.
Proof.
  unfold appendUnique. destruct (find_imdb movies newMovie) as [m0|] eqn:E; [|done].
  apply find_imdb_Some in E as [Hin Hid]. rewrite find_imdb_app.
  destruct (find_imdb movies probe) as [m|] eqn:Ep; [done|].
  rewrite find_imdb_None in Ep. unfold find_imdb. cbn.
  destruct (String.eqb (imdb_id newMovie) (imdb_id probe)) eqn:Eq; [|done].
  apply String.eqb_eq in Eq. destruct (Ep m0 Hin). congruence.
Qed.

Lemma appendAll_find movies newMovies probe :
  find_imdb (appendAll movies newMovies) probe =
  find_imdb (movies ++ newMovies) probe.
Proof.
  unfold appendAll. revert movies.
  induction newMovies as [|x xs IH]; intros movies; [by rewrite app_nil_r|].
  cbn [fold_left]. rewrite IH, !find_imdb_app, appendUnique_find, find_imdb_app.
  rewrite (find_imdb_app [x] xs). by destruct (find_imdb movies probe).
Qed.

(** X14.  First seen wins: looking a record up by [imdb_id] in the merge of
    a batch into a collection finds the first record with that identifier
    in the collection followed by the batch; a record of the batch never
    replaces or shadows an earlier one. *)
Theorem merge_first_seen_wins (existing incoming : list Movie) (probe : Movie) :
  find_imdb (fold_left appendUnique incoming existing) probe =
  find_imdb (existing ++ incoming) probe.
Proof. apply appendAll_find. Qed.

Lemma appendAll_shape existing incoming :
  ∃ added, appendAll existing incoming = existing ++ added ∧
    added `sublist_of` incoming ∧
    NoDup (imdb_id <$> added) ∧
    ∀ a, a ∈ added → ∀ m, m ∈ existing → imdb_id m ≠ imdb_id a.
Proof.
  unfold appendAll. revert existing.
  induction incoming as [|x xs IH]; intros existing.
  { exists []. rewrite app_nil_r. split_and!; [done|done|constructor|].
    by intros a ?%elem_of_nil. }
  cbn [fold_left]. unfold appendUnique at 2.
  destruct (find_imdb existing x) as [m0|] eqn:E.
  - destruct (IH existing) as (added & -> & Hsub & Hnd & Hnew).
    exists added. split_and!; [done|by apply sublist_cons|done..].
  - rewrite find_imdb_None in E.
    destruct (IH (existing ++ [x])) as (added & -> & Hsub & Hnd & Hnew).
    exists (x :: added). split_and!.
    + by rewrite <- app_assoc.
    + by apply sublist_skip.
    + rewrite fmap_cons. apply NoDup_cons. split; [|done].
      intros (a & Hid & Ha)%list_elem_of_fmap.
      apply (Hnew a Ha x); [|done]. apply elem_of_app. right. by left.
    + intros a [->|Ha]%elem_of_cons m Hm; [by apply E|].
      apply (Hnew a Ha m). apply elem_of_app. by left.
Qed.

(** X15.  Merging a batch into a collection keeps the collection as it is
    and appends, in the order of the batch, records of the batch whose
    identifiers are new and pairwise distinct; the identifiers of the result
    are exactly those of the collection and of the batch; merging the same
    batch a second time changes nothing. *)
Theorem merge_shape (existing incoming : list Movie) :
  let merged := fold_left appendUnique incoming existing in
  (∃ added, merged = existing ++ added ∧ added `sublist_of` incoming ∧
     NoDup (imdb_id <$> added) ∧
     ∀ a, a ∈ added → ∀ m, m ∈ existing → imdb_id m ≠ imdb_id a) ∧
  (∀ i, i ∈ imdb_id <$> merged ↔
        i ∈ imdb_id <$> existing ∨ i ∈ imdb_id <$> incoming) ∧
  (length merged ≤ length existing + length incoming)%nat ∧
  fold_left appendUnique incoming merged = merged.
Proof.
  intros merged.
  destruct (appendAll_shape existing incoming) as (added & Hm & Hsub & Hnd & Hnew).
  fold (appendAll existing incoming) in merged. fold merged in Hm.
  assert (∀ i, i ∈ imdb_id <$> merged ↔
        i ∈ imdb_id <$> existing ∨ i ∈ imdb_id <$> incoming) as Hids.
  { intros i. split.
    - rewrite Hm, fmap_app, elem_of_app. intros [?|Hi]; [by left|right].
      apply list_elem_of_fmap in Hi as (a & -> & Ha).
      apply list_elem_of_fmap_2. by eapply elem_of_sublist.
    - intros Hi.
      assert (i ∈ imdb_id <$> (existing ++ incoming)) as Hin
        by (rewrite fmap_app, elem_of_app; done).
      apply list_elem_of_fmap in Hin as (m & -> & Hm').
      destruct (find_imdb merged m) as [m1|] eqn:Ef.
      + apply find_imdb_Some in Ef as [Hin1 <-]. by apply list_elem_of_fmap_2.
      + unfold merged in Ef. rewrite appendAll_find, find_imdb_None in Ef.
        by destruct (Ef m Hm'). }
  split_and!.
  - by exists added.
  - done.
  - rewrite Hm, length_app. apply sublist_length in Hsub. lia.
  - apply appendAll_known. intros m Hin.
    assert (imdb_id m ∈ imdb_id <$> merged) as Hi.
    { apply Hids. right. by apply list_elem_of_fmap_2. }
    apply list_elem_of_fmap in Hi as (m0 & Heq & Hm0). by exists m0.
Qed.

(** ** Further properties: the Worker entry points *)


(** X17.  The read path after a synchronisation: from a bucket with a valid
    persisted collection, whatever a run of [syncMovies] does, completing or
    rejecting, the read handler afterwards serves the persisted collection
    merged with the records of the days the run processed, and it still
    starts with the records served before the run. *)
Theorem worker_fetch_after_sync fetch now (b : gmap string blob) movies r b' t :
  collection b = Some movies →
  Worker.scheduled fetch now b = (r, b', t) →
  ∃ served_now,
    Worker.fetch "/" b' =
      (Ok (Worker.mkHttpResponse 200 (JsonText (JSON_stringify served_now))
             (Some "application/json"%string)), b', [EGet moviesBucketKey]) ∧
    served_now = fold_left appendUnique (served fetch (fetched t)) movies ∧
    movies `prefix_of` served_now.
Proof.
  intros Hcoll Hrun. unfold Worker.scheduled in Hrun.
  pose proof (syncMovies_collection _ _ _ _ _ _ _ Hcoll Hrun) as Hfinal.
  eexists. split_and!; [|done|apply appendAll_prefix].
  unfold Worker.fetch. cbn. rewrite bind_run.
  by rewrite (getMovies_run _ _ Hfinal).
Qed.

(** ** Further properties: the historic fetch *)

Lemma getHistoricUrl_getUrl date : Historic.getHistoricUrl date = getUrl date.
Proof. done. Qed.

Lemma getAllHistoricUrls_loop_range fuel date until :
  Historic.getAllHistoricUrls_loop fuel date until =
  Historic.getHistoricUrl <$> getDateRange_loop fuel date until.
Proof.
  revert date. induction fuel as [|fuel IH]; intros date; [done|].
  cbn. destruct (date <=? until); [|done]. by rewrite fmap_cons, IH.
Qed.

Lemma getAllHistoricUrls_before until :
  until < Historic.startDate → Historic.getAllHistoricUrls until = None.
Proof.
  intros Hlt. unfold Historic.getAllHistoricUrls.
  by rewrite (proj2 (Z.ltb_lt _ _)).
Qed.

Lemma getAllHistoricUrls_from until :
  Historic.startDate ≤ until →
  Historic.getAllHistoricUrls until =
  Some ((λ j, getUrl (j * msPerDay)) <$> seqZ 20301 (dayOf until - 20301 + 1)).
Proof.
  intros Hle. unfold Historic.getAllHistoricUrls.
  rewrite (proj2 (Z.ltb_ge _ _)) by done.
  rewrite getAllHistoricUrls_loop_range.
  change (getDateRange_loop _ Historic.startDate until)
    with (getDateRange (20301 * msPerDay) until).
  by rewrite getDateRange_days, <- list_fmap_compose.
Qed.

(** X18.  [getAllHistoricUrls until] throws when [until] is before the
    start date (1 August 2025); otherwise it returns one URL per calendar
    day from the start date to the day of [until], in order, the same URL
    the synchronisation uses for that day: never an empty list, and its
    length is the number of those days. *)
Theorem getAllHistoricUrls_spec (until : Z) :
  civil (dayOf Historic.startDate) = (2025, 8, 1) ∧
  (until < Historic.startDate → Historic.getAllHistoricUrls until = None) ∧
  (Historic.startDate ≤ until →
     ∃ urls, Historic.getAllHistoricUrls until = Some urls ∧
       urls = (λ j, getUrl (j * msPerDay)) <$> seqZ 20301 (dayOf until - 20301 + 1) ∧
       length urls = Z.to_nat (dayOf until - 20301 + 1) ∧
       head urls = Some (getUrl Historic.startDate) ∧
       last urls = Some (getUrl (dayOf until * msPerDay))).
Proof.
  split_and!; [done|apply getAllHistoricUrls_before|].
  intros Hle. rewrite (getAllHistoricUrls_from _ Hle).
  assert (20301 ≤ dayOf until) as Hday.
  { apply mul_le_dayOf. exact Hle. }
  eexists. split_and!; [done|done| | |].
  - by rewrite length_fmap, length_seqZ.
  - by rewrite seqZ_cons by lia.
  - rewrite fmap_last.
    replace (dayOf until - 20301 + 1) with (Z.of_nat (S (Z.to_nat (dayOf until - 20301))))
      by lia.
    rewrite seqZ_S, last_snoc. cbn. do 3 f_equal. lia.
Qed.

Lemma Historic_appendUnique_NoDup movies newMovie :
  NoDup (Historic.tmdb_id <$> movies) →
  NoDup (Historic.tmdb_id <$> Historic.appendUnique movies newMovie).
Proof.
  intros Hnd. unfold Historic.appendUnique.
  destruct (find _ movies) eqn:E; [done|].
  rewrite fmap_app. apply NoDup_app. split_and!; [done| |apply NoDup_singleton].
  intros i (m & -> & Hin)%list_elem_of_fmap Heq%list_elem_of_singleton.
  apply list_elem_of_In in Hin. apply (find_none _ _ E) in Hin.
  apply Z.eqb_neq in Hin. done.
Qed.

Lemma Historic_appendUnique_elem movies newMovie m :
  m ∈ Historic.appendUnique movies newMovie → m ∈ movies ∨ m = newMovie.
Proof.
  unfold Historic.appendUnique. destruct (find _ movies); [by left|].
  intros [?|?%list_elem_of_singleton]%elem_of_app; [by left|by right].
Qed.

Lemma Historic_fold_day movies fetchedMovies :
  NoDup (Historic.tmdb_id <$> movies) →
  NoDup (Historic.tmdb_id <$> fold_left Historic.appendUnique fetchedMovies movies) ∧
  ∀ m, m ∈ fold_left Historic.appendUnique fetchedMovies movies →
       m ∈ movies ∨ m ∈ fetchedMovies.
Proof.
  revert movies. induction fetchedMovies as [|x xs IH]; intros movies Hnd.
  { split; [done|]. by left. }
  cbn [fold_left].
  destruct (IH _ (Historic_appendUnique_NoDup movies x Hnd)) as [Hnd' Hin].
  split; [done|]. intros m [Hm| Hm]%Hin.
  - apply Historic_appendUnique_elem in Hm as [?| ->]; [by left|right; by left].
  - right. by right.
Qed.

Lemma Historic_fold_all movies movieArrays :
  NoDup (Historic.tmdb_id <$> movies) →
  let result :=
    fold_left (λ movies fetchedMovies,
                 fold_left Historic.appendUnique fetchedMovies movies)
      movieArrays movies in
  NoDup (Historic.tmdb_id <$> result) ∧
  ∀ m, m ∈ result → m ∈ movies ∨ ∃ a, a ∈ movieArrays ∧ m ∈ a.
Proof.
  revert movies. induction movieArrays as [|a arrays IH]; intros movies Hnd.
  { split; [done|]. by left. }
  cbn. destruct (Historic_fold_day movies a Hnd) as [Hnd1 Hin1].
  destruct (IH _ Hnd1) as [Hnd2 Hin2]. split; [done|].
  intros m [Hm|(a' & Ha' & Hm)]%Hin2.
  - apply Hin1 in Hm as [?|?]; [by left|]. right. exists a. split; [by left|done].
  - right. exists a'. split; [by right|done].
Qed.

(** X19.  [fetchAllHistoric] rejects only when yesterday is before the start
    date.  Otherwise it returns, whatever the remote does (requests that
    reject, failure statuses, bodies that do not parse or do not fit the
    schema), a list in which no two movies have the same [tmdb_id] and
    every movie was served, with a success status, at the URL of a day from
    the start date to yesterday. *)
Theorem fetchAllHistoric_spec (fetch : string → option Historic.Response) (now : Z) :
  (dayOf now - 1 < 20301 → Historic.fetchAllHistoric fetch now = None) ∧
  (20301 ≤ dayOf now - 1 →
     ∃ movies, Historic.fetchAllHistoric fetch now = Some movies ∧
       NoDup (Historic.tmdb_id <$> movies) ∧
       ∀ m, m ∈ movies →
         ∃ j response served_movies,
           20301 ≤ j ≤ dayOf now - 1 ∧
           fetch (getUrl (j * msPerDay)) = Some response ∧
           Historic.ok response = true ∧
           Historic.parsed response = Some served_movies ∧
           m ∈ served_movies).
Proof.
  pose proof (yesterday_eq now) as Hy. unfold yesterday, getLatestSync in Hy.
  unfold Historic.fetchAllHistoric. split.
  - intros Hlt. rewrite getAllHistoricUrls_before; [done|].
    apply dayOf_lt_mul. lia.
  - intros Hge. rewrite getAllHistoricUrls_from.
    2:{ apply (mul_le_dayOf 20301). lia. }
    eexists. split; [done|].
    match goal with |- context [fold_left ?f ?arrays []] =>
      destruct (Historic_fold_all [] arrays) as [Hnd Hin] end; [constructor|].
    split; [done|].
    intros m [[]%elem_of_nil|(a & Ha & Hm)]%Hin.
    apply list_elem_of_fmap in Ha as (url & -> & Hurl).
    apply list_elem_of_fmap in Hurl as (j & -> & Hj%elem_of_seqZ).
    unfold Historic.fetchMovies in Hm.
    destruct (fetch (getUrl (j * msPerDay))) as [response|] eqn:Hf;
      [|by apply elem_of_nil in Hm].
    destruct (Historic.ok response) eqn:Hok; cbn in Hm;
      [|by apply elem_of_nil in Hm].
    destruct (Historic.parsed response) as [l|] eqn:Hp;
      [|by apply elem_of_nil in Hm].
    exists j, response, l. split_and!; [lia|lia|done..].
Qed.

(** ** Further properties: the URL of a day *)

Lemma civil_doe_bounds doe :
  0 ≤ doe ≤ 146096 →
  let yoe := (doe - doe / 1460 + doe / 36524 - doe / 146096) / 365 in
  let doy := doe - (365 * yoe + yoe / 4 - yoe / 100) in
  0 ≤ yoe ≤ 399 ∧ 0 ≤ doy ≤ 365.
Proof.
  intros Hdoe yoe doy. unfold doy, yoe. Z.div_mod_to_equations; lia.
Qed.

(** Month and day of month are in range. *)
Lemma civil_range day :
  1 ≤ (civil day).1.2 ≤ 12 ∧ 1 ≤ (civil day).2 ≤ 31.
Proof.
  unfold civil. cbn [fst snd].
  set (z := day + 719468). set (era := z / 146097).
  set (doe := z - era * 146097).
  assert (0 ≤ doe ≤ 146096) as Hdoe
    by (unfold doe, era; Z.div_mod_to_equations; lia).
  destruct (civil_doe_bounds doe Hdoe) as [Hyoe Hdoy]. cbn zeta in Hyoe, Hdoy.
  set (yoe := (doe - doe / 1460 + doe / 36524 - doe / 146096) / 365) in *.
  set (doy := doe - (365 * yoe + yoe / 4 - yoe / 100)) in *.
  clearbody doy. clear -Hdoy.
  destruct ((5 * doy + 2) / 153 <? 10) eqn:E;
    [apply Z.ltb_lt in E|apply Z.ltb_ge in E];
    Z.div_mod_to_equations; lia.
Qed.

(** [days_from_civil] undoes [civil]. *)
Lemma days_from_civil_civil day :
  let '(y, m, d) := civil day in days_from_civil y m d = day.
Proof.
  unfold civil, days_from_civil.
  set (z := day + 719468). set (era := z / 146097).
  set (doe := z - era * 146097).
  assert (0 ≤ doe ≤ 146096) as Hdoe
    by (unfold doe, era; Z.div_mod_to_equations; lia).
  destruct (civil_doe_bounds doe Hdoe) as [Hyoe Hdoy]. cbn zeta in Hyoe, Hdoy.
  set (yoe := (doe - doe / 1460 + doe / 36524 - doe / 146096) / 365) in *.
  set (doy := doe - (365 * yoe + yoe / 4 - yoe / 100)) in *.
  set (mp := (5 * doy + 2) / 153).
  assert (0 ≤ mp ≤ 11) as Hmp by (unfold mp; Z.div_mod_to_equations; lia).
  set (m := if mp <? 10 then mp + 3 else mp - 9).
  assert ((if m <=? 2 then yoe + era * 400 + (if m <=? 2 then 1 else 0) - 1
           else yoe + era * 400 + (if m <=? 2 then 1 else 0)) = yoe + era * 400) as ->.
  { destruct (m <=? 2); lia. }
  assert ((if 2 <? m then m - 3 else m + 9) = mp) as ->.
  { unfold m. destruct (mp <? 10) eqn:E;
      [apply Z.ltb_lt in E|apply Z.ltb_ge in E].
    - rewrite (proj2 (Z.ltb_lt _ _)); lia.
    - rewrite (proj2 (Z.ltb_ge _ _)); lia. }
  assert ((yoe + era * 400) / 400 = era) as ->.
  { Z.div_mod_to_equations; lia. }
  assert (doe = z - era * 146097) as Hz by done.
  assert (doy = doe - (365 * yoe + yoe / 4 - yoe / 100)) as Hd by done.
  clearbody doe doy mp yoe. unfold z in Hz. Z.div_mod_to_equations. lia.
Qed.

Lemma civil_inj day1 day2 : civil day1 = civil day2 → day1 = day2.
Proof.
  intros Heq. pose proof (days_from_civil_civil day1) as H1.
  pose proof (days_from_civil_civil day2) as H2.
  rewrite Heq in H1. destruct (civil day2) as [[y m] d]. congruence.
Qed.

Lemma string_app_inv_head (s t1 t2 : string) : s +:+ t1 = s +:+ t2 → t1 = t2.
Proof. induction s as [|a s IH]; simpl; [done|]. intros [= ?]. auto. Qed.

Lemma string_app_length (s t : string) :
  String.length (s +:+ t) = (String.length s + String.length t)%nat.
Proof. induction s as [|a s IH]; [done|]. simpl. by f_equal. Qed.

(** Two concatenations with tails of the same length split alike. *)
Lemma string_app_inv_length (s1 s2 t1 t2 : string) :
  s1 +:+ t1 = s2 +:+ t2 → String.length t1 = String.length t2 →
  s1 = s2 ∧ t1 = t2.
Proof.
  revert s2. induction s1 as [|a s1 IH]; intros [|a2 s2] Heq Hlen.
  - done.
  - exfalso. apply (f_equal String.length) in Heq.
    rewrite !string_app_length in Heq.
    change (String.length (String a2 s2)) with (S (String.length s2)) in Heq.
    change (String.length "") with 0%nat in Heq. lia.
  - exfalso. apply (f_equal String.length) in Heq.
    rewrite !string_app_length in Heq.
    change (String.length (String a s1)) with (S (String.length s1)) in Heq.
    change (String.length "") with 0%nat in Heq. lia.
  - injection Heq as -> Heq. destruct (IH s2 Heq Hlen) as [-> ->]. done.
Qed.

Lemma padStart2_two_digits n :
  1 ≤ n ≤ 31 → String.length (padStart2 n) = 2%nat.
Proof.
  intros Hn.
  assert (Forall (λ k, String.length (padStart2 k) = 2%nat) (seqZ 1 31)) as Hall.
  { apply (bool_decide_unpack _). by vm_compute. }
  rewrite Forall_seqZ in Hall. apply Hall. lia.
Qed.

Lemma padStart2_inj n1 n2 :
  1 ≤ n1 ≤ 31 → 1 ≤ n2 ≤ 31 → padStart2 n1 = padStart2 n2 → n1 = n2.
Proof.
  intros H1 H2.
  assert (Forall (λ a, Forall (λ b, padStart2 a = padStart2 b → a = b) (seqZ 1 31))
            (seqZ 1 31)) as Hall.
  { apply (bool_decide_unpack _). by vm_compute. }
  rewrite Forall_seqZ in Hall. specialize (Hall n1 ltac:(lia)).
  rewrite Forall_seqZ in Hall. apply Hall. lia.
Qed.

Lemma getUrl_dayOf (date1 date2 : Z) :
  getUrl date1 = getUrl date2 ↔ dayOf date1 = dayOf date2.
Proof.
  split.
  - unfold getUrl, getFullYear, getMonth, getDate. intros Heq.
    destruct (civil_range (dayOf date1)) as [Hm1 Hd1].
    destruct (civil_range (dayOf date2)) as [Hm2 Hd2].
    do 2 apply string_app_inv_head in Heq.
    apply string_app_inv_length in Heq as [Hy Heq].
    2:{ rewrite !string_app_length, !padStart2_two_digits; [done|lia..]. }
    apply string_app_inv_length in Heq as [Hm Heq].
    2:{ rewrite !string_app_length, !padStart2_two_digits; [done|lia..]. }
    apply string_app_inv_length in Heq as [Hd _]; [|done].
    apply (inj pretty) in Hy.
    apply padStart2_inj in Hm; [|lia..]. apply padStart2_inj in Hd; [|lia..].
    apply civil_inj.
    destruct (civil (dayOf date1)) as [[y1 m1] d1].
    destruct (civil (dayOf date2)) as [[y2 m2] d2]. cbn in *.
    f_equal; [f_equal|]; lia.
  - unfold getUrl, getFullYear, getMonth, getDate. by intros ->.
Qed.

(** X20.  Two dates get the same snapshot URL exactly when they fall on the
    same calendar day: the URL ignores the time of day, and, the month and
    the day being padded to two digits, distinct days never share a URL. *)
Theorem getUrl_same_day (date1 date2 : Z) :
  (getUrl date1 = getUrl date2 ↔ dayOf date1 = dayOf date2) ∧
  String.length (padStart2 (getMonth date1 + 1)) = 2%nat ∧
  String.length (padStart2 (getDate date1)) = 2%nat ∧
  0 ≤ getMonth date1 ≤ 11 ∧ 1 ≤ getDate date1 ≤ 31.
Proof.
  destruct (civil_range (dayOf date1)) as [Hm Hd].
  unfold getMonth, getDate.
  split_and!; [apply getUrl_dayOf| | |lia..];
    apply padStart2_two_digits; lia.
Qed.

Lemma requested_no_fetch t : fetched t = [] → requested t = [].
Proof.
  induction t as [|e t IH]; [done|]. by destruct e.
Qed.

Lemma requested_syncLoop fetch dates movies (b : gmap string blob) r b' t :
  syncLoop fetch dates movies b = (r, b', t) →
  requested t = getUrl <$> fetched t.
Proof.
  revert movies b r b' t.
  induction dates as [|d dates IH]; intros movies b r b' t H.
  { rewrite syncLoop_nil in H. by simplify_eq. }
  loop_step H d.
  - apply IH in Hrest. rewrite fetched_cons_fetch, fetched_app, fetched_commit_events.
    change (requested (EFetch d (getUrl d) :: commit_events d movies newMovies ++ t0))
      with (getUrl d :: requested (commit_events d movies newMovies ++ t0)).
    unfold requested in *. rewrite omap_app, Hrest.
    unfold commit_events. by case_match.
  - apply IH in Hrest. rewrite fetched_cons_fetch, fmap_cons, <- Hrest. done.
  - done.
Qed.

(** X21.  Within a run every request goes to the URL of the day it is made
    for, and no URL is requested twice. *)
Theorem run_requests_distinct_urls fetch now (b : gmap string blob) c r b' t :
  b !! lastSyncedBucketKey = Some (IsoDate c) →
  syncMovies fetch now b = (r, b', t) →
  requested t = getUrl <$> fetched t ∧ NoDup (requested t).
Proof.
  intros Hc Hrun.
  destruct (syncMovies_inv _ _ _ _ _ _ _ Hc Hrun) as (Hpre & _).
  assert (requested t = getUrl <$> fetched t) as Hreq.
  { rewrite (syncMovies_run _ _ _ _ Hc) in Hrun.
    case_decide; [by simplify_eq|]. case_decide; [by simplify_eq|].
    destruct (getMovies b) as [[[movies|e] b1] t1] eqn:Hget;
      apply getMovies_inv in Hget as (_ & Hf1 & _);
      pose proof (requested_no_fetch _ Hf1) as Hr1.
    - destruct (syncLoop _ _ _ _) as [[r2 b2] t2] eqn:Hloop. simplify_eq.
      apply requested_syncLoop in Hloop.
      change (EGet lastSyncedBucketKey :: t1 ++ t2)
        with ([EGet lastSyncedBucketKey] ++ t1 ++ t2).
      unfold requested, fetched in *. rewrite !omap_app, Hr1, Hf1, Hloop. done.
    - simplify_eq.
      change (EGet lastSyncedBucketKey :: t1)
        with ([EGet lastSyncedBucketKey] ++ t1).
      unfold requested, fetched in *. rewrite !omap_app, Hr1, Hf1. done. }
  split; [done|]. rewrite Hreq.
  assert (NoDup (getUrl <$> pending now c)) as Hnd.
  { apply NoDup_fmap_2_strong; [|].
    - intros x y (i & -> & _)%pending_elem (j & -> & _)%pending_elem Heq.
      apply getUrl_dayOf in Heq. rewrite !dayOf_mul in Heq. by subst.
    - unfold pending. apply NoDup_fmap_2; [|apply NoDup_seqZ].
      intros x y Hxy. pose proof msPerDay_pos. nia. }
  destruct Hpre as [k Hk]. rewrite Hk, fmap_app in Hnd.
  by apply NoDup_app in Hnd as [? _].
Qed.

(** ** Further properties: catching up *)

Lemma pending_last now c :
  c < yesterday now →
  last (pending now c) = Some (Z.min (c + 7) (yesterday now) * msPerDay).
Proof.
  intros Hlt. unfold pending. rewrite fmap_last.
  replace (Z.min 7 (yesterday now - c))
    with (Z.of_nat (S (Z.to_nat (Z.min 7 (yesterday now - c) - 1)))) by lia.
  rewrite seqZ_S, last_snoc. cbn. do 2 f_equal. lia.
Qed.

(** A run on which every day is served. *)
Lemma syncMovies_all_processed fetch now (b : gmap string blob) c movies :
  b !! lastSyncedBucketKey = Some (IsoDate c) →
  c ≤ yesterday now →
  collection b = Some movies →
  (∀ d, processed fetch d = true) →
  ∃ b' t movies', syncMovies fetch now b = (Ok tt, b', t) ∧
    b' !! lastSyncedBucketKey = Some (IsoDate (Z.min (c + 7) (yesterday now))) ∧
    collection b' = Some movies'.
Proof.
  intros Hc Hle Hcoll Hall.
  destruct (syncMovies fetch now b) as [[r b'] t] eqn:Hrun.
  pose proof (syncMovies_collection _ _ _ _ _ _ _ Hcoll Hrun) as Hfinal.
  rewrite (syncMovies_run _ _ _ _ Hc) in Hrun.
  case_decide; [lia|]. case_decide as Hy.
  - simplify_eq. eexists _, _, _. split_and!; [done| |done].
    rewrite Hc. do 2 f_equal. lia.
  - rewrite (getMovies_run _ _ Hcoll) in Hrun.
    destruct (syncLoop_all_processed fetch (pending now c) movies b)
      as (b2 & t2 & Hloop & _ & Hb2); [by intros|].
    rewrite Hloop in Hrun. simplify_eq.
    eexists _, _, _. split_and!; [done| |done].
    rewrite Hb2, pending_last by lia. by rewrite dayOf_mul.
Qed.

(** X22.  Catching up: when the remote serves every day, [n] runs in
    succession from a checkpoint [c] and a valid collection leave the
    checkpoint at [min (c + 7 n) yesterday]; the backlog is worked off 7
    days per run and the checkpoint then stays at yesterday. *)
Theorem catch_up fetch now (b : gmap string blob) c movies (n : nat) :
  b !! lastSyncedBucketKey = Some (IsoDate c) →
  c ≤ yesterday now →
  collection b = Some movies →
  (∀ d, processed fetch d = true) →
  checkpoint (runs (replicate n (fetch, now)) b).1 =
    Some (Z.min (c + 7 * Z.of_nat n) (yesterday now)).
Proof.
  intros Hc Hle Hcoll Hall. revert b c movies Hc Hle Hcoll.
  induction n as [|n IH]; intros b c movies Hc Hle Hcoll.
  { cbn. apply checkpoint_lookup. rewrite Hc. do 2 f_equal. lia. }
  cbn [replicate runs].
  destruct (syncMovies_all_processed fetch now b c movies Hc Hle Hcoll Hall)
    as (b1 & t1 & movies1 & -> & Hc1 & Hcoll1).
  specialize (IH b1 _ movies1 Hc1 ltac:(lia) Hcoll1).
  destruct (runs (replicate n (fetch, now)) b1) as [b2 t2]. cbn in *.
  rewrite IH. f_equal. lia.
Qed.

(** ** Instances of the further properties *)

Lemma getMovies_initialises_witness :
  ∃ b1, getMovies ∅ =
          (Ok [], b1, [EGet moviesBucketKey;
                       EPut moviesBucketKey (JsonText (JArr []))]) ∧
    b1 = <[moviesBucketKey := JsonText (JArr [])]> ∅ ∧
    getMovies b1 = (Ok [], b1, [EGet moviesBucketKey]).
Proof. apply (getMovies_initialises ∅). reflexivity. Defined.

Lemma getMovies_schema_witness :
  getMovies (ex_movies_only (JsonText (JArr [ex_json_extra_key]))) =
    (Ok [mkMovie "A" "tt1" "a"],
     (ex_movies_only (JsonText (JArr [ex_json_extra_key]))),
     [EGet moviesBucketKey]) ∧
  getMovies (ex_movies_only (JsonText (JArr [ex_json_extra_key; ex_json_no_poster]))) =
    (Err ZodError,
     (ex_movies_only (JsonText (JArr [ex_json_extra_key; ex_json_no_poster]))),
     [EGet moviesBucketKey]) ∧
  getMovies (ex_movies_only (JsonText ex_json_extra_key)) =
    (Err ZodError, (ex_movies_only (JsonText ex_json_extra_key)),
     [EGet moviesBucketKey]) ∧
  getMovies (ex_movies_only (PlainText "not json")) =
    (Err SyntaxError, (ex_movies_only (PlainText "not json")),
     [EGet moviesBucketKey]).
Proof.
  split; [|split; [|split]].
  - apply (proj1 (getMovies_schema
             (ex_movies_only (JsonText (JArr [ex_json_extra_key])))
             (JsonText (JArr [ex_json_extra_key])) eq_refl) [ex_json_extra_key]);
      [reflexivity|]. constructor; [reflexivity|constructor].
  - apply (proj1 (proj2 (getMovies_schema
             (ex_movies_only (JsonText (JArr [ex_json_extra_key; ex_json_no_poster])))
             (JsonText (JArr [ex_json_extra_key; ex_json_no_poster])) eq_refl))
             [ex_json_extra_key; ex_json_no_poster] ex_json_no_poster);
      [reflexivity| |reflexivity]. right. left.
  - apply (proj1 (proj2 (proj2 (getMovies_schema
             (ex_movies_only (JsonText ex_json_extra_key))
             (JsonText ex_json_extra_key) eq_refl))) ex_json_extra_key);
      [reflexivity|]. intros items. discriminate.
  - apply (proj2 (proj2 (proj2 (getMovies_schema
             (ex_movies_only (PlainText "not json"))
             (PlainText "not json") eq_refl)))). reflexivity.
Defined.

Lemma getLastSynced_initialises_witness :
  ∃ b1, getLastSynced ∅ =
          (Ok (18231 * msPerDay), b1,
           [EGet lastSyncedBucketKey; EPut lastSyncedBucketKey (IsoDate 18231)]) ∧
    civil 18231 = (2019, 12, 1) ∧
    b1 = <[lastSyncedBucketKey := IsoDate 18231]> ∅ ∧
    getLastSynced b1 = (Ok (18231 * msPerDay), b1, [EGet lastSyncedBucketKey]).
Proof. apply (getLastSynced_initialises ∅). reflexivity. Defined.

Lemma syncMovies_corrupt_checkpoint_witness :
  syncMovies ex_fetch_empty ex_now {[ lastSyncedBucketKey := PlainText "yesterday" ]} =
  (Err ZodError, {[ lastSyncedBucketKey := PlainText "yesterday" ]},
   [EGet lastSyncedBucketKey]).
Proof.
  apply (syncMovies_corrupt_checkpoint ex_fetch_empty ex_now _ (PlainText "yesterday"));
    reflexivity.
Defined.

Lemma syncMovies_first_run_witness :
  syncMovies ex_fetch_404 ex_now ∅ =
  let '(r, b', t) :=
    syncMovies ex_fetch_404 ex_now (<[lastSyncedBucketKey := IsoDate 18231]> ∅) in
  (r, b', [EGet lastSyncedBucketKey; EPut lastSyncedBucketKey (IsoDate 18231)]
          ++ tail t).
Proof. apply (syncMovies_first_run ex_fetch_404 ex_now ∅). reflexivity. Defined.

Lemma getNextSyncDates_window_witness :
  ∃ dates, getNextSyncDates ex_now (ex_bucket 20095 []) =
             (Ok dates, ex_bucket 20095 [], [EGet lastSyncedBucketKey]) ∧
    (∀ x, x ∈ dates ↔
          ∃ j, x = j * msPerDay ∧ 20095 < j ∧ j ≤ 20095 + 7 ∧ j ≤ yesterday ex_now) ∧
    length dates = Z.to_nat (Z.min 7 (yesterday ex_now - 20095)) ∧
    (length dates ≤ 7)%nat ∧
    StronglySorted Z.lt dates ∧
    (dates = [] ↔ 20095 = yesterday ex_now).
Proof.
  apply (getNextSyncDates_window ex_now (ex_bucket 20095 []) 20095).
  - reflexivity.
  - vm_compute. discriminate.
Defined.

Lemma syncMovies_bounds_witness :
  (∃ c', checkpoint ex_run_500_then_ok.1.2 = Some c' ∧ 20095 ≤ c' ∧
         c' ≤ 20095 + 7 ∧ (20095 ≤ yesterday ex_now → c' ≤ yesterday ex_now)) ∧
  (length (fetched ex_run_500_then_ok.2) ≤ 7)%nat ∧
  NoDup (fetched ex_run_500_then_ok.2) ∧
  (∀ x, x ∈ fetched ex_run_500_then_ok.2 →
        20095 < dayOf x ∧ dayOf x ≤ yesterday ex_now ∧ x = dayOf x * msPerDay) ∧
  (∀ rs, ∃ c'', checkpoint (runs rs (ex_bucket 20095 [])).1 = Some c'' ∧ 20095 ≤ c'').
Proof.
  apply (syncMovies_bounds ex_fetch_500_then_ok ex_now (ex_bucket 20095 []) 20095
           ex_run_500_then_ok.1.1).
  - reflexivity.
  - apply run_projections.
Defined.

Lemma syncMovies_persists_merge_witness :
  collection ex_run_dup.1.2 =
    Some (fold_left appendUnique (served ex_fetch_tt2 (fetched ex_run_dup.2)) ex_dup) ∧
  ex_dup `prefix_of`
    fold_left appendUnique (served ex_fetch_tt2 (fetched ex_run_dup.2)) ex_dup.
Proof.
  apply (syncMovies_persists_merge ex_fetch_tt2 ex_now (ex_bucket 20095 ex_dup)
           ex_dup ex_run_dup.1.1).
  - reflexivity.
  - apply run_projections.
Defined.

Lemma collection_written_on_growth_witness :
  (∀ v, (moviesBucketKey, v) ∈ writes ex_run_dup.2 →
     ∃ l final, v = JsonText (JSON_stringify l) ∧
       (length ex_dup < length l)%nat ∧ ex_dup `prefix_of` l ∧
       collection ex_run_dup.1.2 = Some final ∧ l `prefix_of` final) ∧
  ((∀ m, m ∈ served ex_fetch_tt2 (fetched ex_run_dup.2) →
         ∃ m0, m0 ∈ ex_dup ∧ imdb_id m0 = imdb_id m) →
   (∀ v, (moviesBucketKey, v) ∉ writes ex_run_dup.2) ∧
   collection ex_run_dup.1.2 = Some ex_dup).
Proof.
  apply (collection_written_on_growth ex_fetch_tt2 ex_now (ex_bucket 20095 ex_dup)
           20095 ex_dup ex_run_dup.1.1).
  - reflexivity.
  - reflexivity.
  - apply run_projections.
Defined.

Lemma transport_failure_aborts_witness :
  ∃ b1 t1,
    syncLoop ex_fetch_ok_then_down [20096 * msPerDay] [] (ex_bucket 20095 []) =
      (Ok tt, b1, t1) ∧
    syncMovies ex_fetch_ok_then_down ex_now (ex_bucket 20095 []) =
      (Err FetchError, b1,
       [EGet lastSyncedBucketKey; EGet moviesBucketKey] ++ t1 ++
       [EFetch (20097 * msPerDay) (getUrl (20097 * msPerDay))]) ∧
    fetched t1 = [20096 * msPerDay] ∧
    ∃ c1, checkpoint b1 = Some c1 ∧ 20095 ≤ c1 ∧ c1 < dayOf (20097 * msPerDay).
Proof.
  apply (transport_failure_aborts ex_fetch_ok_then_down ex_now
           (ex_bucket 20095 []) 20095 [] [20096 * msPerDay] (20097 * msPerDay) []).
  - reflexivity.
  - reflexivity.
  - reflexivity.
  - intros x Hx. apply list_elem_of_singleton in Hx. rewrite Hx.
    exists (Some [ex_movie "tt1"]). reflexivity.
  - reflexivity.
Defined.


Lemma worker_fetch_after_sync_witness :
  ∃ served_now,
    Worker.fetch "/" ex_run_dup.1.2 =
      (Ok (Worker.mkHttpResponse 200 (JsonText (JSON_stringify served_now))
             (Some "application/json"%string)),
       ex_run_dup.1.2, [EGet moviesBucketKey]) ∧
    served_now =
      fold_left appendUnique (served ex_fetch_tt2 (fetched ex_run_dup.2)) ex_dup ∧
    ex_dup `prefix_of` served_now.
Proof.
  apply (worker_fetch_after_sync ex_fetch_tt2 ex_now (ex_bucket 20095 ex_dup)
           ex_dup ex_run_dup.1.1).
  - reflexivity.
  - apply run_projections.
Defined.

Lemma getAllHistoricUrls_spec_witness :
  Historic.getAllHistoricUrls ex_now = None ∧
  ∃ urls, Historic.getAllHistoricUrls ex_now_august = Some urls ∧
    urls = (λ j, getUrl (j * msPerDay)) <$>
             seqZ 20301 (dayOf ex_now_august - 20301 + 1) ∧
    length urls = Z.to_nat (dayOf ex_now_august - 20301 + 1) ∧
    head urls = Some (getUrl Historic.startDate) ∧
    last urls = Some (getUrl (dayOf ex_now_august * msPerDay)).
Proof.
  split.
  - apply (proj1 (proj2 (getAllHistoricUrls_spec ex_now))). reflexivity.
  - apply (proj2 (proj2 (getAllHistoricUrls_spec ex_now_august))).
    vm_compute. discriminate.
Defined.

Lemma fetchAllHistoric_spec_witness :
  Historic.fetchAllHistoric ex_historic_fetch ex_now = None ∧
  ∃ movies, Historic.fetchAllHistoric ex_historic_fetch ex_now_august = Some movies ∧
    NoDup (Historic.tmdb_id <$> movies) ∧
    ∀ m, m ∈ movies →
      ∃ j response served_movies,
        20301 ≤ j ≤ dayOf ex_now_august - 1 ∧
        ex_historic_fetch (getUrl (j * msPerDay)) = Some response ∧
        Historic.ok response = true ∧
        Historic.parsed response = Some served_movies ∧
        m ∈ served_movies.
Proof.
  split.
  - apply (proj1 (fetchAllHistoric_spec ex_historic_fetch ex_now)). reflexivity.
  - apply (proj2 (fetchAllHistoric_spec ex_historic_fetch ex_now_august)).
    vm_compute. discriminate.
Defined.

Lemma run_requests_distinct_urls_witness :
  requested ex_run_500_then_ok.2 = getUrl <$> fetched ex_run_500_then_ok.2 ∧
  NoDup (requested ex_run_500_then_ok.2).
Proof.
  apply (run_requests_distinct_urls ex_fetch_500_then_ok ex_now
           (ex_bucket 20095 []) 20095 ex_run_500_then_ok.1.1 ex_run_500_then_ok.1.2).
  - reflexivity.
  - apply run_projections.
Defined.

Lemma catch_up_witness :
  checkpoint (runs (replicate 3 (ex_fetch_empty, ex_now)) (ex_bucket 20080 [])).1 =
    Some (Z.min (20080 + 7 * Z.of_nat 3) (yesterday ex_now)).
Proof.
  apply (catch_up ex_fetch_empty ex_now (ex_bucket 20080 []) 20080 [] 3).
  - reflexivity.
  - vm_compute. discriminate.
  - reflexivity.
  - intros d. reflexivity.
Defined.

(** The historic fetch on the scenario: the day that answers 503 is
    skipped and the two movies served on the other days are kept once. *)
Example fetchAllHistoric_example :
  Historic.fetchAllHistoric ex_historic_fetch ex_now_august =
  Some [ex_historic_movie 1; ex_historic_movie 2].
Proof. reflexivity. Qed.
